(** * Raster-to-rectangle conversion: a model of [src/app/api/convert/route.ts]

    The development embeds the conversion routine of the [POST] handler
    (pixel sampling, colour-key quantisation, bucketing in a [Map],
    sort, horizontal run merging, SVG serialisation) and proves the
    properties of the specification about it.

    Numbers.  Every JavaScript number that the routine computes is either
    an integer far below 2^53 or one of the quotients [r/2], [a/255],
    [a/255*20], [n/20], [baseSize/400].  [Math.round] and [Math.floor] of
    these doubles agree with rounding the exact rational (no product
    [a/255*20] lies within 1/102 of a tie, no quotient [baseSize/400]
    within 1/400 of the next integer), and [n/20] prints as the decimal
    with at most two places.  The model therefore computes with [Z] and
    [Q]; [undefined] and [NaN] are [None].

    The page [src/app/page.tsx] that calls the handler is modelled too: its
    drop and convert handlers as steps on the state of the component, the
    name of the download, and the updater of the progress bar, which adds
    inexact fractions and is computed on binary64 numbers. *)

From Stdlib Require Import ZArith QArith Qround Bool List Lia Floats.
From Stdlib Require Import String Ascii DecimalString DecimalZ DecimalPos.
From Stdlib Require Import Permutation Sorted.
From Stdlib.Strings Require Import Byte.
Import ListNotations.

Local Open Scope Z_scope.

(** ** JavaScript primitives used by the routine *)

Module Js.

(** [Math.round]: nearest integer, ties towards +infinity. *)
Definition Math_round (q : Q) : Z := Qfloor (q + (1 # 2))%Q.

Definition Math_floor (q : Q) : Z := Qfloor q.

Definition Math_min (a b : Z) : Z := Z.min a b.
Definition Math_max (a b : Z) : Z := Z.max a b.

(** Template-literal rendering of an integer. *)
Definition digits (n : Z) : string := NilZero.string_of_int (Z.to_int n).

(** Template-literal rendering of a non-negative number with at most two
    decimal places (shortest form: no trailing zero, no bare point). *)
Definition Number_toString (q : Q) : string :=
  let c := Qfloor (q * 100)%Q in
  let ip := c / 100 in
  let fp := c mod 100 in
  if fp =? 0 then digits ip
  else if fp mod 10 =? 0 then (digits ip ++ "." ++ digits (fp / 10))%string
  else if fp <? 10 then (digits ip ++ ".0" ++ digits fp)%string
  else (digits ip ++ "." ++ digits fp)%string.

(** A value that may be [undefined] / [NaN]. *)
Definition show (v : option Z) : string :=
  match v with Some n => digits n | None => "NaN"%string end.

Definition show_frac (v : option Q) : string :=
  match v with Some q => Number_toString q | None => "NaN"%string end.

(** The double quote and the line feed of the template literals. *)
Definition dq : string := String (ascii_of_nat 34) EmptyString.
Definition nl : string := String (ascii_of_nat 10) EmptyString.

End Js.

(** ** Data model *)

Module Rect.
(** [interface Rect { x; y; width; height }] *)
Record t : Type := mk { x : Z; y : Z; width : Z; height : Z }.

Definition eqb (a b : t) : bool :=
  (x a =? x b) && (y a =? y b) && (width a =? width b) && (height a =? height b).

Definition eq_dec (a b : t) : {a = b} + {a <> b}.
Proof. decide equality; apply Z.eq_dec. Defined.
Arguments eq_dec : simpl never.
End Rect.

(** The decoded image: [canvas.width], [canvas.height] and
    [imageData.data], a [Uint8ClampedArray]. *)
Record PixelBuffer : Type := mkPixelBuffer {
  canvas_width : Z;
  canvas_height : Z;
  data : list byte
}.

(** [data[idx]]: [undefined] outside the array. *)
Definition data_at (d : list byte) (idx : Z) : option Z :=
  if idx <? 0 then None
  else option_map (fun b => Z.of_N (Byte.to_N b)) (nth_error d (Z.to_nat idx)).

(** ** The colour map: a [Map<string, Rect[]>], iterated in insertion order *)

Module ColorMap.

Definition t : Type := list (string * list Rect.t).

Fixpoint get (m : t) (k : string) : option (list Rect.t) :=
  match m with
  | [] => None
  | (k', v) :: m' => if String.eqb k' k then Some v else get m' k
  end.

Definition has (m : t) (k : string) : bool :=
  match get m k with Some _ => true | None => false end.

(** [set] keeps the position of a key already present and appends a new one. *)
Fixpoint set (m : t) (k : string) (v : list Rect.t) : t :=
  match m with
  | [] => [(k, v)]
  | (k', v') :: m' =>
      if String.eqb k' k then (k', v) :: m' else (k', v') :: set m' k v
  end.

Definition keys (m : t) : list string := map fst m.

(** The bucket of a key, empty when the key is absent. *)
Definition bucket (m : t) (k : string) : list Rect.t :=
  match get m k with Some v => v | None => [] end.

End ColorMap.

(** ** Sampling (route.ts, lines 68-97) *)

Definition sampleRate (pb : PixelBuffer) : Z :=
  let baseSize := Js.Math_min (canvas_width pb) (canvas_height pb) in
  Js.Math_max 1 (Js.Math_floor (inject_Z baseSize / 400)%Q).

(** [Math.round(c/2)*2] *)
Definition quantize (c : option Z) : option Z :=
  option_map (fun v => Js.Math_round (inject_Z v / 2)%Q * 2) c.

(** [data[idx + 3] / 255] *)
Definition alpha_of (c : option Z) : option Q :=
  option_map (fun v => (inject_Z v / 255)%Q) c.

(** [a === 0] *)
Definition is_zero (a : option Q) : bool :=
  match a with Some q => Qeq_bool q 0 | None => false end.

(** [Math.round(a*20)/20] *)
Definition quantize_alpha (a : option Q) : option Q :=
  option_map (fun q => (inject_Z (Js.Math_round (q * 20)) / 20)%Q) a.

Definition colorKey (r g b : option Z) (a : option Q) : string :=
  ("rgba(" ++ Js.show (quantize r) ++ "," ++ Js.show (quantize g) ++ ","
     ++ Js.show (quantize b) ++ "," ++ Js.show_frac (quantize_alpha a) ++ ")")%string.

(** The key of the pixel anchored at [(px, py)], [None] when the pixel is
    skipped as fully transparent. *)
Definition key_at (pb : PixelBuffer) (px py : Z) : option string :=
  let idx := (py * canvas_width pb + px) * 4 in
  let r := data_at (data pb) idx in
  let g := data_at (data pb) (idx + 1) in
  let b := data_at (data pb) (idx + 2) in
  let a := alpha_of (data_at (data pb) (idx + 3)) in
  if is_zero a then None else Some (colorKey r g b a).

(** [colorMap.get(colorKey).push(rect)], after creating the bucket if needed. *)
Definition push_rect (colorMap : ColorMap.t) (key : string) (rect : Rect.t) : ColorMap.t :=
  let colorMap :=
    if negb (ColorMap.has colorMap key) then ColorMap.set colorMap key [] else colorMap in
  match ColorMap.get colorMap key with
  | Some colorRects => ColorMap.set colorMap key (colorRects ++ [rect])
  | None => colorMap
  end.

(** The body of the inner loop. *)
Definition sample_pixel (pb : PixelBuffer) (s : Z) (py px : Z) (colorMap : ColorMap.t)
  : ColorMap.t :=
  match key_at pb px py with
  | None => colorMap
  | Some key => push_rect colorMap key (Rect.mk px py s s)
  end.

(** [for (let x = ...; x < canvas.width; x += sampleRate)]; [None] when the
    fuel runs out. *)
Fixpoint loop_x (fuel : nat) (pb : PixelBuffer) (s py px : Z) (colorMap : ColorMap.t)
  : option ColorMap.t :=
  if px <? canvas_width pb then
    match fuel with
    | O => None
    | S fuel' => loop_x fuel' pb s py (px + s) (sample_pixel pb s py px colorMap)
    end
  else Some colorMap.

(** [for (let y = ...; y < canvas.height; y += sampleRate)] *)
Fixpoint loop_y (fuel : nat) (pb : PixelBuffer) (s py : Z) (colorMap : ColorMap.t)
  : option ColorMap.t :=
  if py <? canvas_height pb then
    match fuel with
    | O => None
    | S fuel' =>
        match loop_x (Z.to_nat (canvas_width pb)) pb s py 0 colorMap with
        | None => None
        | Some colorMap' => loop_y fuel' pb s (py + s) colorMap'
        end
    end
  else Some colorMap.

(** The sampling pass at stride [s]. *)
Definition group_pixels (pb : PixelBuffer) (s : Z) : option ColorMap.t :=
  loop_y (Z.to_nat (canvas_height pb)) pb s 0 [].

(** ** Merging (route.ts, lines 99-123) *)

Definition mergeable (current rect : Rect.t) : bool :=
  (Rect.y rect =? Rect.y current) && (Rect.height rect =? Rect.height current)
  && (Rect.x rect =? Rect.x current + Rect.width current).

Definition extend (current rect : Rect.t) : Rect.t :=
  Rect.mk (Rect.x current) (Rect.y current)
          (Rect.width current + Rect.width rect) (Rect.height current).

(** The [for] loop of [optimizeRects] with its two variables. *)
Fixpoint merge_loop (result : list Rect.t) (current : Rect.t) (rects : list Rect.t)
  : list Rect.t :=
  match rects with
  | [] => result ++ [current]
  | rect :: rects' =>
      if mergeable current rect
      then merge_loop result (extend current rect) rects'
      else merge_loop (result ++ [current]) rect rects'
  end.

Definition optimizeRects (rects : list Rect.t) : list Rect.t :=
  if Z.of_nat (List.length rects) <=? 1 then rects
  else match rects with
       | [] => rects
       | first :: rest => merge_loop [] first rest
       end.

(** ** Sorting (route.ts, line 131) *)

Definition compareFn (a b : Rect.t) : Z :=
  if Rect.y a =? Rect.y b then Rect.x a - Rect.x b else Rect.y a - Rect.y b.

(** [Array.prototype.sort] is stable: modelled as the stable insertion
    sort, which returns the ordered permutation of its input and leaves an
    ordered input as it is. *)
Fixpoint insert_sorted (a : Rect.t) (l : list Rect.t) : list Rect.t :=
  match l with
  | [] => [a]
  | b :: l' => if compareFn a b <=? 0 then a :: b :: l' else b :: insert_sorted a l'
  end.

Fixpoint sort (l : list Rect.t) : list Rect.t :=
  match l with
  | [] => []
  | a :: l' => insert_sorted a (sort l')
  end.

(** ** Serialisation (route.ts, lines 125-146) *)

Local Open Scope string_scope.

Definition rect_element (rect : Rect.t) (color : string) : string :=
  "<rect x=" ++ Js.dq ++ Js.digits (Rect.x rect) ++ Js.dq
  ++ " y=" ++ Js.dq ++ Js.digits (Rect.y rect) ++ Js.dq
  ++ " width=" ++ Js.dq ++ Js.digits (Rect.width rect) ++ Js.dq
  ++ " height=" ++ Js.dq ++ Js.digits (Rect.height rect) ++ Js.dq
  ++ " fill=" ++ Js.dq ++ color ++ Js.dq ++ " />".

(** One iteration of [for (const [color, rects] of colorMap.entries())]. *)
Definition emit_color (svgPaths : string) (entry : string * list Rect.t) : string :=
  let (color, rects) := entry in
  let rects := sort rects in
  let optimizedRects := optimizeRects rects in
  fold_left (fun acc rect => acc ++ rect_element rect color) optimizedRects svgPaths.

Definition svgPaths (colorMap : ColorMap.t) : string :=
  fold_left emit_color colorMap "".

Definition svg_document (w h : Z) (paths : string) : string :=
  "<?xml version=" ++ Js.dq ++ "1.0" ++ Js.dq ++ " encoding=" ++ Js.dq ++ "UTF-8" ++ Js.dq
  ++ " standalone=" ++ Js.dq ++ "no" ++ Js.dq ++ "?>" ++ Js.nl
  ++ "<svg width=" ++ Js.dq ++ Js.digits w ++ Js.dq
  ++ " height=" ++ Js.dq ++ Js.digits h ++ Js.dq
  ++ " xmlns=" ++ Js.dq ++ "http://www.w3.org/2000/svg" ++ Js.dq
  ++ " viewBox=" ++ Js.dq ++ "0 0 " ++ Js.digits w ++ " " ++ Js.digits h ++ Js.dq ++ ">"
  ++ Js.nl ++ "  " ++ paths ++ Js.nl ++ "</svg>".

(** The conversion at a given stride, and at the stride the handler picks. *)
Definition convert_at (pb : PixelBuffer) (s : Z) : option string :=
  match group_pixels pb s with
  | Some colorMap =>
      Some (svg_document (canvas_width pb) (canvas_height pb) (svgPaths colorMap))
  | None => None
  end.

Definition convert (pb : PixelBuffer) : option string :=
  convert_at pb (sampleRate pb).

(** The rectangles the document draws, with their fill, in document order. *)
Definition merged_groups (colorMap : ColorMap.t) : list (string * list Rect.t) :=
  map (fun entry => (fst entry, optimizeRects (sort (snd entry)))) colorMap.

Definition emitted (colorMap : ColorMap.t) : list (Rect.t * string) :=
  flat_map (fun g => map (fun rect => (rect, fst g)) (snd g)) (merged_groups colorMap).

(** ** The handler's responses *)

Inductive Response : Type :=
| Json_svg (svg : string)
| Json_error (error : string) (status : Z).

(** What [formData.get('image')] returns (line 8): [null], the text of a
    field that is no file, or the uploaded file. *)
Inductive FormEntry (File : Type) : Type :=
| NoEntry
| TextEntry (text : string)
| FileEntry (file : File).
Arguments NoEntry {File}.
Arguments TextEntry {File} text.
Arguments FileEntry {File} file.

(** The handler.  [formData] is what [await request.formData()] gives,
    [None] when it rejects (inside the [try], so the [catch] answers).
    [!file] holds for [null] and for the empty text; on any other text
    [file.arrayBuffer()] throws.  The decoding stage of lines 18-55
    ([sharp], [canvas]) is external: [decode] returns the canvas and its
    image data, [None] when any call of the stage throws. *)
Definition POST {File : Type} (decode : File -> option PixelBuffer)
           (formData : option (FormEntry File)) : option Response :=
  match formData with
  | None => Some (Json_error "Failed to convert image" 500)
  | Some NoEntry => Some (Json_error "No image file provided" 400)
  | Some (TextEntry EmptyString) => Some (Json_error "No image file provided" 400)
  | Some (TextEntry _) => Some (Json_error "Failed to convert image" 500)
  | Some (FileEntry f) =>
      match decode f with
      | None => Some (Json_error "Failed to convert image" 500)
      | Some pb => option_map Json_svg (convert pb)
      end
  end.

Local Close Scope string_scope.

(** ** Vocabulary of the statements *)

(** The values [from], [from + s], ... below [limit] that a [for] loop
    visits, with the fuel of the loop. *)
Fixpoint steps (fuel : nat) (limit s from : Z) : list Z :=
  if from <? limit then
    match fuel with
    | O => []
    | S fuel' => from :: steps fuel' limit s (from + s)
    end
  else [].

(** The anchors of the sampling pass, in the order of the scan. *)
Definition grid_points (pb : PixelBuffer) (s : Z) : list (Z * Z) :=
  flat_map
    (fun py => map (fun px => (px, py))
                   (steps (Z.to_nat (canvas_width pb)) (canvas_width pb) s 0))
    (steps (Z.to_nat (canvas_height pb)) (canvas_height pb) s 0).

Definition cell (s : Z) (p : Z * Z) : Rect.t := Rect.mk (fst p) (snd p) s s.

Definition sample_step (pb : PixelBuffer) (s : Z) (m : ColorMap.t) (p : Z * Z)
  : ColorMap.t :=
  sample_pixel pb s (snd p) (fst p) m.

Definition key_is (pb : PixelBuffer) (k : string) (p : Z * Z) : bool :=
  match key_at pb (fst p) (snd p) with
  | Some k' => String.eqb k' k
  | None => false
  end.

(** [r] covers the point [(px, py)] of row [py]. *)
Definition covers (px py : Z) (r : Rect.t) : bool :=
  (Rect.y r =? py) && (Rect.x r <=? px) && (px <? Rect.x r + Rect.width r).

(** [r] lies on the row of [c], has its height and spans its columns. *)
Definition covers_cell (c r : Rect.t) : bool :=
  (Rect.y r =? Rect.y c) && (Rect.height r =? Rect.height c)
  && (Rect.x r <=? Rect.x c)
  && (Rect.x c + Rect.width c <=? Rect.x r + Rect.width r).

Definition cover_count (px py : Z) (l : list Rect.t) : nat :=
  List.length (filter (covers px py) l).

(** The order of the scan: row first, then column. *)
Definition scan_lt (p q : Z * Z) : Prop :=
  snd p < snd q \/ (snd p = snd q /\ fst p < fst q).

(** The order of the comparator of the sort. *)
Definition rect_le (a b : Rect.t) : Prop := compareFn a b <= 0.

Definition point_eq_dec (p q : Z * Z) : {p = q} + {p <> q}.
Proof. decide equality; apply Z.eq_dec. Defined.
Arguments point_eq_dec : simpl never.

(** Rectangles on the grid of stride [s]. *)
Definition aligned (s : Z) (r : Rect.t) : Prop :=
  (s | Rect.x r) /\ (s | Rect.width r) /\ 0 <= Rect.width r /\ Rect.height r = s.

Definition join (l : list string) : string := fold_right append EmptyString l.

(** The stride in the words of the specification:
    [max(1, floor(min(W,H) / 400))]. *)
Definition spec_stride (w h : Z) : Z := Z.max 1 (Z.min w h / 400).

(** The opacities a fill can show: the multiples of 1/20 from 0 to 1. *)
Definition alpha_levels : list string :=
  ["0"; "0.05"; "0.1"; "0.15"; "0.2"; "0.25"; "0.3"; "0.35"; "0.4"; "0.45"; "0.5";
   "0.55"; "0.6"; "0.65"; "0.7"; "0.75"; "0.8"; "0.85"; "0.9"; "0.95"; "1"]%string.

(** The array holds four channels for each of the [W * H] pixels. *)
Definition well_formed (pb : PixelBuffer) : Prop :=
  0 <= canvas_width pb /\ 0 <= canvas_height pb /\
  Z.of_nat (List.length (data pb)) = canvas_width pb * canvas_height pb * 4.

(** ** Sample buffers *)

(** Two opaque red pixels side by side. *)
Definition red2x1 : PixelBuffer :=
  mkPixelBuffer 2 1 [xff; x00; x00; xff; xff; x00; x00; xff].

(** A 2-by-2 buffer of fully transparent pixels. *)
Definition clear2x2 : PixelBuffer :=
  mkPixelBuffer 2 2 [x0a; x14; x1e; x00; x28; x32; x3c; x00;
                     x46; x50; x5a; x00; x64; x6e; x78; x00].

(** One pixel (10,20,30) of alpha 3. *)
Definition faint1x1 : PixelBuffer := mkPixelBuffer 1 1 [x0a; x14; x1e; x03].

(** One opaque grey pixel of level 100, and one of level 101. *)
Definition gray100 : PixelBuffer := mkPixelBuffer 1 1 [x64; x64; x64; xff].
Definition gray101 : PixelBuffer := mkPixelBuffer 1 1 [x65; x65; x65; xff].

(** ** Vocabulary of the further properties *)

(** The sample at an anchor is kept (not skipped as transparent). *)
Definition kept (pb : PixelBuffer) (p : Z * Z) : bool :=
  match key_at pb (fst p) (snd p) with Some _ => true | None => false end.

(** The keys of the kept samples, in the order of the scan. *)
Definition scan_keys (pb : PixelBuffer) (pts : list (Z * Z)) : list string :=
  flat_map (fun p => match key_at pb (fst p) (snd p) with
                     | Some k => [k]
                     | None => []
                     end) pts.

(** Keep the first occurrence of every string. *)
Fixpoint dedup_first (l : list string) : list string :=
  match l with
  | [] => []
  | k :: l' => k :: filter (fun k' => negb (String.eqb k' k)) (dedup_first l')
  end.

Definition total_width (l : list Rect.t) : Z :=
  fold_right (fun r acc => Rect.width r + acc) 0 l.

Definition total_area (l : list Rect.t) : Z :=
  fold_right (fun r acc => Rect.width r * Rect.height r + acc) 0 l.

(** Same position: what the comparator of the sort cannot tell apart. *)
Definition same_place (c r : Rect.t) : bool :=
  (Rect.x r =? Rect.x c) && (Rect.y r =? Rect.y c).

(** All the cells of a map, bucket after bucket. *)
Definition all_cells (m : ColorMap.t) : list Rect.t := List.concat (map snd m).

(** No comma among the characters of a string. *)
Fixpoint comma_free (t : string) : bool :=
  match t with
  | EmptyString => true
  | String c t' => negb (Ascii.eqb c ","%char) && comma_free t'
  end.

(** ** The page (src/app/page.tsx) *)

(** A dropped [File]: its name and its bytes. *)
Record UploadedFile : Type := mkFile {
  file_name : string;
  file_bytes : list byte
}.

(** The state of [Home]: [image], [svg], [loading] (the progress bar is
    left out), and the requests of [convertToSvg] that still wait for their
    response, oldest first, each with the [image] its closure captured. *)
Record Page : Type := mkPage {
  image : option UploadedFile;
  svg : option string;
  loading : bool;
  in_flight : list UploadedFile
}.

Definition initial_page : Page := mkPage None None false [].

(** [onDrop] (page.tsx, lines 13-19) *)
Definition onDrop (acceptedFiles : list UploadedFile) (p : Page) : Page :=
  match acceptedFiles with
  | file :: _ => mkPage (Some file) None (loading p) (in_flight p)
  | [] => p
  end.

(** [convertToSvg] up to its first [await] (lines 84-91). *)
Definition convertToSvg_start (p : Page) : Page :=
  match image p with
  | None => p
  | Some img => mkPage (image p) (svg p) true (in_flight p ++ [img])
  end.

(** [response.ok]: a status from 200 to 299. *)
Definition response_ok (r : Response) : bool :=
  match r with
  | Json_svg _ => true
  | Json_error _ status => (200 <=? status) && (status <=? 299)
  end.

(** [data.svg] of the parsed body ([undefined] is [None]). *)
Definition response_svg (r : Response) : option string :=
  match r with
  | Json_svg doc => Some doc
  | Json_error _ _ => None
  end.

(** The rest of [convertToSvg] (lines 96-109), once [fetch] has settled:
    [None] is a rejected [fetch]. *)
Definition convertToSvg_settle (response : option Response) (p : Page) : Page :=
  match in_flight p with
  | [] => p
  | _ :: waiting =>
      match response with
      | Some r =>
          if response_ok r then mkPage (image p) (response_svg r) false waiting
          else mkPage (image p) (svg p) false waiting
      | None => mkPage (image p) (svg p) false waiting
      end
  end.

(** The convert button is rendered when [image] is set and enabled when
    not [loading] (lines 167, 199-205). *)
Definition convert_enabled (p : Page) : bool :=
  match image p with Some _ => negb (loading p) | None => false end.

(** The download button is rendered when [svg] is truthy (line 210). *)
Definition download_shown (p : Page) : bool :=
  match svg p with
  | Some EmptyString => false
  | Some _ => true
  | None => false
  end.

Inductive Event : Type :=
| Drop (acceptedFiles : list UploadedFile)
| ClickConvert
| Settle (response : option Response).

Definition step (p : Page) (e : Event) : Page :=
  match e with
  | Drop acceptedFiles => onDrop acceptedFiles p
  | ClickConvert => if convert_enabled p then convertToSvg_start p else p
  | Settle response => convertToSvg_settle response p
  end.

Definition run (events : list Event) (p : Page) : Page := fold_left step events p.

(** The page against the handler of route.ts: every response is the answer
    of [POST] to the oldest waiting request, whose form carries the image
    ([formData.append('image', image)], line 94). *)
Inductive Action : Type :=
| UserDrop (acceptedFiles : list UploadedFile)
| UserConvert
| Answer.

Definition act (decode : UploadedFile -> option PixelBuffer) (p : Page) (a : Action)
  : Page :=
  match a with
  | UserDrop acceptedFiles => step p (Drop acceptedFiles)
  | UserConvert => step p ClickConvert
  | Answer =>
      match in_flight p with
      | [] => p
      | img :: _ => step p (Settle (POST decode (Some (FileEntry img))))
      end
  end.

Definition session (decode : UploadedFile -> option PixelBuffer) (actions : list Action)
  : Page :=
  fold_left (act decode) actions initial_page.

(** The files dropped so far. *)
Definition dropped (actions : list Action) : list UploadedFile :=
  flat_map (fun a => match a with
                     | UserDrop (file :: _) => [file]
                     | _ => []
                     end) actions.

(** [String.prototype.split('.')] *)
Fixpoint split_dot (t : string) : list string :=
  match t with
  | EmptyString => [EmptyString]
  | String c t' =>
      if Ascii.eqb c "."%char then EmptyString :: split_dot t'
      else match split_dot t' with
           | head :: tail => String c head :: tail
           | [] => [String c EmptyString]
           end
  end.

(** [Array.prototype.join('.')] *)
Fixpoint join_dot (l : list string) : string :=
  match l with
  | [] => EmptyString
  | [a] => a
  | a :: l' => (a ++ "." ++ join_dot l')%string
  end.

(** The name of the download (line 218):
    [`${image?.name.split('.')[0] || 'converted'}.svg`]. *)
Definition download_name (img : option UploadedFile) : string :=
  let stem :=
    match img with
    | Some f =>
        match nth_error (split_dot (file_name f)) 0 with
        | Some EmptyString => "converted"%string
        | Some first => first
        | None => "converted"%string
        end
    | None => "converted"%string
    end in
  (stem ++ ".svg")%string.

Fixpoint dot_free (t : string) : bool :=
  match t with
  | EmptyString => true
  | String c t' => negb (Ascii.eqb c "."%char) && dot_free t'
  end.

(** At most one request waits, and exactly while [loading]. *)
Definition one_in_flight (p : Page) : Prop :=
  (in_flight p = [] /\ loading p = false) \/
  (exists img, in_flight p = [img] /\ loading p = true /\ image p <> None).

(** What the page shows comes from files that were dropped. *)
Definition shown_is_converted (decode : UploadedFile -> option PixelBuffer)
           (actions : list Action) (p : Page) : Prop :=
  (forall doc, svg p = Some doc ->
     exists img pb, In img (dropped actions) /\ decode img = Some pb /\
                    convert pb = Some doc) /\
  (forall img, image p = Some img -> In img (dropped actions)) /\
  (forall img, In img (in_flight p) -> In img (dropped actions)).

(** The updater of the progress bar (page.tsx, lines 44-65), on binary64
    numbers as JavaScript computes it. *)
#[warnings="-inexact-float"] Definition progress_tick (prev : float) : float :=
  let acceleration :=
    if (prev <? 30)%float then 1.2%float
    else if (prev <? 60)%float then 1%float
    else if (prev <? 80)%float then 0.8%float
    else 0.3%float in
  let increment := (0.5 * acceleration)%float in
  let newProgress := (prev + increment)%float in
  if (95 <=? newProgress)%float then 95%float else newProgress.

(** The integers of the rectangles, and every sum the merge forms from
    them ([current.x + current.width], [current.width += rect.width]), lie
    in the range where JavaScript numbers are exact. *)
Definition exact_sums (rects : list Rect.t) : Prop :=
  Forall (fun r => 0 <= Rect.width r /\
                   Z.abs (Rect.x r) + total_width rects <= 2 ^ 53 /\
                   Z.abs (Rect.y r) <= 2 ^ 53 /\ Z.abs (Rect.height r) <= 2 ^ 53)
         rects.

(** * Facts about the model *)

(** ** The colour map *)

Module ColorMapFacts.
Import ColorMap.

Lemma get_set (m : t) (k : string) (v : list Rect.t) (k' : string) :
  get (set m k v) k' = if String.eqb k k' then Some v else get m k'.
Proof.
  induction m as [|[k0 v0] m IH]; simpl; [reflexivity|].
  destruct (String.eqb k0 k) eqn:E0.
  - apply String.eqb_eq in E0; subst k0; simpl.
    destruct (String.eqb k k'); reflexivity.
  - simpl. rewrite IH.
    destruct (String.eqb k0 k') eqn:E1; [|reflexivity].
    apply String.eqb_eq in E1; subst k'. rewrite String.eqb_sym, E0. reflexivity.
Qed.

Lemma has_In (m : t) (k : string) : has m k = true <-> In k (keys m).
Proof.
  unfold has. induction m as [|[k0 v0] m IH]; simpl.
  - split; [discriminate | tauto].
  - destruct (String.eqb k0 k) eqn:E0.
    + apply String.eqb_eq in E0. tauto.
    + apply String.eqb_neq in E0. rewrite IH. tauto.
Qed.

Lemma keys_set (m : t) (k : string) (v : list Rect.t) :
  keys (set m k v) = if has m k then keys m else (keys m ++ [k])%list.
Proof.
  unfold has, keys. induction m as [|[k0 v0] m IH]; simpl; [reflexivity|].
  destruct (String.eqb k0 k) eqn:E0; simpl; [reflexivity|].
  rewrite IH. destruct (get m k); reflexivity.
Qed.

Lemma get_In (m : t) (k : string) (v : list Rect.t) :
  get m k = Some v -> In (k, v) m.
Proof.
  induction m as [|[k0 v0] m IH]; simpl; [discriminate|].
  destruct (String.eqb k0 k) eqn:E0.
  - apply String.eqb_eq in E0. intros [= ->]. left. congruence.
  - auto.
Qed.

Lemma In_get (m : t) (k : string) (v : list Rect.t) :
  NoDup (keys m) -> In (k, v) m -> get m k = Some v.
Proof.
  induction m as [|[k0 v0] m IH]; simpl; [tauto|].
  intros ND [E|I].
  - injection E as -> ->. rewrite String.eqb_refl. reflexivity.
  - inversion ND as [|? ? N1 N2]; subst.
    destruct (String.eqb k0 k) eqn:E0; [|auto].
    apply String.eqb_eq in E0; subst k0. exfalso. apply N1.
    change (In (fst (k, v)) (map fst m)). apply in_map. exact I.
Qed.

Lemma NoDup_set (m : t) (k : string) (v : list Rect.t) :
  NoDup (keys m) -> NoDup (keys (set m k v)).
Proof.
  intros ND. rewrite keys_set. destruct (has m k) eqn:E; [exact ND|].
  apply NoDup_app; [exact ND | repeat constructor; simpl; tauto |].
  intros k' I [<-|[]]. apply has_In in I. congruence.
Qed.

End ColorMapFacts.

Section Bucketing.
Import ColorMap ColorMapFacts.

Lemma get_push_rect (m : t) (k : string) (r : Rect.t) (k' : string) :
  get (push_rect m k r) k' =
  if String.eqb k k' then Some (bucket m k ++ [r])%list else get m k'.
Proof.
  unfold push_rect, has, bucket. destruct (get m k) as [v|] eqn:E; simpl.
  - rewrite E, get_set. reflexivity.
  - rewrite get_set, String.eqb_refl, !get_set. simpl.
    destruct (String.eqb k k'); reflexivity.
Qed.

Lemma bucket_push_rect (m : t) (k : string) (r : Rect.t) (k' : string) :
  bucket (push_rect m k r) k' =
  if String.eqb k k' then (bucket m k ++ [r])%list else bucket m k'.
Proof.
  unfold bucket at 1. rewrite get_push_rect.
  destruct (String.eqb k k'); reflexivity.
Qed.

Lemma NoDup_push_rect (m : t) (k : string) (r : Rect.t) :
  NoDup (keys m) -> NoDup (keys (push_rect m k r)).
Proof.
  intros ND. unfold push_rect.
  destruct (negb (has m k)).
  - destruct (get (set m k []) k); auto using NoDup_set.
  - destruct (get m k); auto using NoDup_set.
Qed.

End Bucketing.

(** ** The loops visit the grid *)

Section Loops.
Variable pb : PixelBuffer.
Variable s : Z.
Hypothesis s_pos : 1 <= s.

Lemma steps_lower (fuel : nat) (limit from v : Z) :
  In v (steps fuel limit s from) -> from <= v.
Proof.
  revert from. induction fuel as [|fuel IH]; intros from; simpl;
    destruct (from <? limit); simpl; try tauto.
  intros [<-|I]; [lia | apply IH in I; lia].
Qed.

Lemma steps_In (fuel : nat) (limit from v : Z) :
  (Z.to_nat (limit - from) <= fuel)%nat ->
  In v (steps fuel limit s from) <-> from <= v < limit /\ (s | v - from).
Proof.
  revert from. induction fuel as [|fuel IH]; intros from Hf; simpl;
    destruct (from <? limit) eqn:E;
    try (apply Z.ltb_lt in E); try (apply Z.ltb_ge in E); simpl;
    try (split; [tauto | lia]).
  rewrite IH by lia. split.
  - intros [<-|[Hr Hd]].
    + split; [lia|]. exists 0. lia.
    + split; [lia|]. destruct Hd as [q Hq]. exists (q + 1). lia.
  - intros [Hr [q Hq]].
    destruct (Z.eq_dec q 0) as [->|Hq0]; [left; lia|].
    right. assert (1 <= q) by nia. split; [nia|]. exists (q - 1). lia.
Qed.

Lemma steps_NoDup (fuel : nat) (limit from : Z) : NoDup (steps fuel limit s from).
Proof.
  revert from. induction fuel as [|fuel IH]; intros from; simpl;
    destruct (from <? limit); try constructor; auto.
  intros I. apply steps_lower in I. lia.
Qed.

Lemma loop_x_steps (fuel : nat) (py px : Z) (m : ColorMap.t) :
  (Z.to_nat (canvas_width pb - px) <= fuel)%nat ->
  loop_x fuel pb s py px m =
  Some (fold_left (fun m' x' => sample_pixel pb s py x' m')
                  (steps fuel (canvas_width pb) s px) m).
Proof.
  revert px m. induction fuel as [|fuel IH]; intros px m Hf; simpl;
    destruct (px <? canvas_width pb) eqn:E;
    try (apply Z.ltb_lt in E); try (apply Z.ltb_ge in E); simpl;
    try reflexivity; try lia.
  apply IH. lia.
Qed.

Lemma loop_y_steps (fuel : nat) (py : Z) (m : ColorMap.t) :
  (Z.to_nat (canvas_height pb - py) <= fuel)%nat ->
  loop_y fuel pb s py m =
  Some (fold_left
          (fun m' y' =>
             fold_left (fun m'' x' => sample_pixel pb s y' x' m'')
                       (steps (Z.to_nat (canvas_width pb)) (canvas_width pb) s 0) m')
          (steps fuel (canvas_height pb) s py) m).
Proof.
  revert py m. induction fuel as [|fuel IH]; intros py m Hf; simpl;
    destruct (py <? canvas_height pb) eqn:E;
    try (apply Z.ltb_lt in E); try (apply Z.ltb_ge in E); simpl;
    try reflexivity; try lia.
  rewrite loop_x_steps by lia. apply IH. lia.
Qed.

Lemma fold_left_rows (ys xs : list Z) (m : ColorMap.t) :
  fold_left (sample_step pb s)
            (flat_map (fun py => map (fun px => (px, py)) xs) ys) m =
  fold_left (fun m' y' => fold_left (fun m'' x' => sample_pixel pb s y' x' m'') xs m')
            ys m.
Proof.
  revert m. induction ys as [|y0 ys IH]; intros m; simpl; [reflexivity|].
  rewrite fold_left_app, IH. f_equal.
  clear. revert m. induction xs as [|x0 xs IHx]; intros m; simpl; auto.
Qed.

(** The sampling pass terminates within its fuel and is the fold of the
    loop body over the grid. *)
Lemma group_pixels_grid :
  group_pixels pb s = Some (fold_left (sample_step pb s) (grid_points pb s) []).
Proof.
  unfold group_pixels, grid_points.
  rewrite loop_y_steps by lia. rewrite fold_left_rows. reflexivity.
Qed.

Lemma grid_points_In (px py : Z) :
  In (px, py) (grid_points pb s) <->
  (0 <= px < canvas_width pb /\ (s | px)) /\ (0 <= py < canvas_height pb /\ (s | py)).
Proof.
  unfold grid_points. rewrite in_flat_map. split.
  - intros [y0 [Hy Hx]]. apply in_map_iff in Hx. destruct Hx as [x0 [E Hx]].
    injection E as -> ->.
    apply steps_In in Hx; [|lia]. apply steps_In in Hy; [|lia].
    rewrite Z.sub_0_r in Hx, Hy. tauto.
  - intros [Hx Hy]. exists py. split.
    + apply steps_In; [lia|]. rewrite Z.sub_0_r. exact Hy.
    + apply (in_map (fun px' => (px', py))).
      apply steps_In; [lia|]. rewrite Z.sub_0_r. exact Hx.
Qed.

Lemma grid_points_NoDup : NoDup (grid_points pb s).
Proof.
  unfold grid_points.
  generalize (steps (Z.to_nat (canvas_width pb)) (canvas_width pb) s 0)
             (steps_NoDup (Z.to_nat (canvas_width pb)) (canvas_width pb) 0).
  generalize (steps (Z.to_nat (canvas_height pb)) (canvas_height pb) s 0)
             (steps_NoDup (Z.to_nat (canvas_height pb)) (canvas_height pb) 0).
  intros ys NDy xs NDx. induction NDy as [|y0 ys Hy0 NDy IH]; simpl; [constructor|].
  apply NoDup_app; [| exact IH |].
  - clear -NDx. induction NDx as [|x0 xs Hx0 NDx IHx]; simpl; constructor; auto.
    intros I. apply in_map_iff in I. destruct I as [x1 [E I]]. congruence.
  - intros [a b] I1 I2. apply in_map_iff in I1. destruct I1 as [x1 [E I1]].
    apply in_flat_map in I2. destruct I2 as [y1 [Iy I2]].
    apply in_map_iff in I2. destruct I2 as [x2 [E2 I2]]. congruence.
Qed.

End Loops.

(** ** What the sampling pass leaves in each bucket *)

Section Buckets.
Import ColorMap ColorMapFacts.
Variable pb : PixelBuffer.
Variable s : Z.

Lemma sample_step_unfold (m : t) (p : Z * Z) :
  sample_step pb s m p =
  match key_at pb (fst p) (snd p) with
  | None => m
  | Some key => push_rect m key (cell s p)
  end.
Proof. reflexivity. Qed.

Lemma bucket_fold (pts : list (Z * Z)) (m : t) (k : string) :
  bucket (fold_left (sample_step pb s) pts m) k =
  (bucket m k ++ map (cell s) (filter (key_is pb k) pts))%list.
Proof.
  revert m. induction pts as [|p pts IH]; intros m; simpl.
  - rewrite app_nil_r. reflexivity.
  - rewrite IH, sample_step_unfold. unfold key_is at 2.
    destruct (key_at pb (fst p) (snd p)) as [key|]; [|reflexivity].
    rewrite bucket_push_rect. destruct (String.eqb key k) eqn:E; [|reflexivity].
    apply String.eqb_eq in E; subst key. simpl. rewrite <- app_assoc. reflexivity.
Qed.

Lemma has_push_rect (m : t) (key : string) (r : Rect.t) (k : string) :
  has (push_rect m key r) k = String.eqb key k || has m k.
Proof.
  unfold has. rewrite get_push_rect. destruct (String.eqb key k); reflexivity.
Qed.

Lemma has_fold (pts : list (Z * Z)) (m : t) (k : string) :
  has (fold_left (sample_step pb s) pts m) k = has m k || existsb (key_is pb k) pts.
Proof.
  revert m. induction pts as [|p pts IH]; intros m; simpl.
  - rewrite orb_false_r. reflexivity.
  - rewrite IH, sample_step_unfold. unfold key_is at 2.
    destruct (key_at pb (fst p) (snd p)) as [key|]; [|reflexivity].
    rewrite has_push_rect.
    destruct (String.eqb key k), (has m k); reflexivity.
Qed.

Lemma NoDup_fold (pts : list (Z * Z)) (m : t) :
  NoDup (keys m) -> NoDup (keys (fold_left (sample_step pb s) pts m)).
Proof.
  revert m. induction pts as [|p pts IH]; intros m ND; simpl; [exact ND|].
  apply IH. rewrite sample_step_unfold.
  destruct (key_at pb (fst p) (snd p)); auto using NoDup_push_rect.
Qed.

(** Every entry of the final map holds the cells of the anchors with its
    key, in scan order, and at least one of them. *)
Lemma entry_fold (pts : list (Z * Z)) (k : string) (b : list Rect.t) :
  In (k, b) (fold_left (sample_step pb s) pts []) ->
  b = map (cell s) (filter (key_is pb k) pts) /\
  existsb (key_is pb k) pts = true.
Proof.
  intros I.
  assert (G : get (fold_left (sample_step pb s) pts []) k = Some b).
  { apply In_get; [apply NoDup_fold; constructor | exact I]. }
  split.
  - pose proof (bucket_fold pts [] k) as B. unfold bucket at 1 in B.
    rewrite G in B. exact B.
  - pose proof (has_fold pts [] k) as H. unfold has at 1 in H.
    rewrite G in H. symmetry. exact H.
Qed.

Lemma fold_entry (pts : list (Z * Z)) (k : string) :
  existsb (key_is pb k) pts = true ->
  In (k, map (cell s) (filter (key_is pb k) pts)) (fold_left (sample_step pb s) pts []).
Proof.
  intros E. apply get_In.
  pose proof (has_fold pts [] k) as H. rewrite E in H. simpl in H.
  pose proof (bucket_fold pts [] k) as B. unfold has in H. unfold bucket at 1 in B.
  destruct (get (fold_left (sample_step pb s) pts []) k); [|discriminate].
  rewrite B. reflexivity.
Qed.

End Buckets.

(** ** Sorting and merging *)

Section Merge.

Lemma merge_loop_app (result : list Rect.t) (current : Rect.t) (rects : list Rect.t) :
  merge_loop result current rects = (result ++ merge_loop [] current rects)%list.
Proof.
  revert result current. induction rects as [|rect rects IH]; intros result current; simpl.
  - reflexivity.
  - destruct (mergeable current rect).
    + apply IH.
    + rewrite IH, (IH [current]). rewrite <- app_assoc. reflexivity.
Qed.

Lemma merge_loop_cons (current rect : Rect.t) (rects : list Rect.t) :
  merge_loop [] current (rect :: rects) =
  if mergeable current rect then merge_loop [] (extend current rect) rects
  else current :: merge_loop [] rect rects.
Proof.
  simpl. destruct (mergeable current rect); [reflexivity|].
  rewrite merge_loop_app. reflexivity.
Qed.

Lemma optimizeRects_cons (first : Rect.t) (rest : list Rect.t) :
  optimizeRects (first :: rest) = merge_loop [] first rest.
Proof.
  unfold optimizeRects. destruct rest as [|r rest]; [reflexivity|].
  replace (Z.of_nat (List.length (first :: r :: rest)) <=? 1) with false; [reflexivity|].
  symmetry. apply Z.leb_gt. simpl List.length. lia.
Qed.

Lemma cover_count_cons (px py : Z) (r : Rect.t) (l : list Rect.t) :
  cover_count px py (r :: l) =
  ((if covers px py r then 1 else 0) + cover_count px py l)%nat.
Proof. unfold cover_count. simpl. destruct (covers px py r); reflexivity. Qed.

Lemma covers_extend (px py : Z) (current rect : Rect.t) :
  0 <= Rect.width current -> 0 <= Rect.width rect ->
  mergeable current rect = true ->
  ((if covers px py (extend current rect) then 1 else 0) =
   (if covers px py current then 1 else 0) + (if covers px py rect then 1 else 0))%nat.
Proof.
  intros Hc Hr M. unfold mergeable in M. apply andb_prop in M. destruct M as [M Mx].
  apply andb_prop in M. destruct M as [My Mh].
  apply Z.eqb_eq in Mx, My, Mh.
  unfold covers, extend; simpl. rewrite My, Mx.
  destruct (Rect.y current =? py); simpl; [|reflexivity].
  destruct (Rect.x current <=? px) eqn:E1;
    destruct (px <? Rect.x current + Rect.width current) eqn:E2;
    destruct (Rect.x current + Rect.width current <=? px) eqn:E3;
    destruct (px <? Rect.x current + (Rect.width current + Rect.width rect)) eqn:E4;
    destruct (px <? Rect.x current + Rect.width current + Rect.width rect) eqn:E5;
    simpl; try reflexivity; exfalso;
    rewrite ?Z.leb_le, ?Z.leb_gt, ?Z.ltb_lt, ?Z.ltb_ge in *; lia.
Qed.

(** Merging neither loses nor duplicates coverage of a point. *)
Lemma cover_count_merge_loop (px py : Z) (rects : list Rect.t) (current : Rect.t) :
  0 <= Rect.width current -> Forall (fun r => 0 <= Rect.width r) rects ->
  cover_count px py (merge_loop [] current rects) = cover_count px py (current :: rects).
Proof.
  revert current. induction rects as [|rect rects IH]; intros current Hc Hr.
  - reflexivity.
  - inversion Hr as [|? ? Hr1 Hr2]; subst. rewrite merge_loop_cons.
    destruct (mergeable current rect) eqn:M.
    + rewrite IH; [|simpl; lia|exact Hr2].
      rewrite !cover_count_cons, (covers_extend px py current rect Hc Hr1 M). lia.
    + rewrite cover_count_cons, IH by assumption.
      rewrite <- cover_count_cons. reflexivity.
Qed.

Lemma cover_count_optimizeRects (px py : Z) (rects : list Rect.t) :
  Forall (fun r => 0 <= Rect.width r) rects ->
  cover_count px py (optimizeRects rects) = cover_count px py rects.
Proof.
  destruct rects as [|first rest]; [reflexivity|].
  intros F. inversion F; subst. rewrite optimizeRects_cons.
  apply cover_count_merge_loop; assumption.
Qed.

Lemma insert_sorted_perm (a : Rect.t) (l : list Rect.t) :
  Permutation (insert_sorted a l) (a :: l).
Proof.
  induction l as [|b l IH]; simpl; [reflexivity|].
  destruct (compareFn a b <=? 0); [reflexivity|].
  rewrite IH. apply perm_swap.
Qed.

Lemma sort_perm (l : list Rect.t) : Permutation (sort l) l.
Proof.
  induction l as [|a l IH]; simpl; [reflexivity|].
  rewrite insert_sorted_perm, IH. reflexivity.
Qed.

Lemma compareFn_flip (a b : Rect.t) : compareFn b a = - compareFn a b.
Proof.
  unfold compareFn. rewrite (Z.eqb_sym (Rect.y b) (Rect.y a)).
  destruct (Rect.y a =? Rect.y b); lia.
Qed.

Lemma insert_sorted_Sorted (a : Rect.t) (l : list Rect.t) :
  Sorted rect_le l -> Sorted rect_le (insert_sorted a l).
Proof.
  induction l as [|b l IH]; intros S; simpl.
  - repeat constructor.
  - destruct (Z.leb_spec (compareFn a b) 0) as [L|G].
    + constructor; [exact S | constructor; exact L].
    + inversion S as [|? ? S' Hd]; subst. constructor; [apply IH; exact S'|].
      destruct l as [|c l]; simpl.
      * constructor. unfold rect_le. rewrite compareFn_flip. lia.
      * destruct (compareFn a c <=? 0); constructor.
        -- unfold rect_le. rewrite compareFn_flip. lia.
        -- inversion Hd; assumption.
Qed.

Lemma sort_Sorted (l : list Rect.t) : Sorted rect_le (sort l).
Proof.
  induction l as [|a l IH]; simpl; [constructor | apply insert_sorted_Sorted; exact IH].
Qed.

Lemma sort_id (l : list Rect.t) : Sorted rect_le l -> sort l = l.
Proof.
  induction 1 as [|a l S IH Hd]; simpl; [reflexivity|].
  rewrite IH. destruct Hd as [|b l Hab]; simpl; [reflexivity|].
  replace (compareFn a b <=? 0) with true; [reflexivity|].
  symmetry. apply Z.leb_le. exact Hab.
Qed.

Lemma cover_count_perm (px py : Z) (l l' : list Rect.t) :
  Permutation l l' -> cover_count px py l = cover_count px py l'.
Proof.
  induction 1; rewrite ?cover_count_cons; lia.
Qed.

Lemma Forall_sort (P : Rect.t -> Prop) (l : list Rect.t) :
  Forall P l -> Forall P (sort l).
Proof.
  intros F. apply Forall_forall. intros r I.
  apply (Permutation_in _ (sort_perm l)) in I.
  revert r I. apply Forall_forall. exact F.
Qed.

Lemma aligned_merge_loop (s : Z) (rects : list Rect.t) (current : Rect.t) :
  aligned s current -> Forall (aligned s) rects ->
  Forall (aligned s) (merge_loop [] current rects).
Proof.
  revert current. induction rects as [|rect rects IH]; intros current Hc Hr.
  - simpl. constructor; [exact Hc | constructor].
  - inversion Hr as [|? ? Hr1 Hr2]; subst. rewrite merge_loop_cons.
    destruct (mergeable current rect).
    + apply IH; [|exact Hr2].
      destruct Hc as (c1 & c2 & c3 & c4), Hr1 as (r1 & r2 & r3 & r4).
      unfold aligned, extend; simpl. repeat split; auto using Z.divide_add_r; lia.
    + constructor; auto.
Qed.

Lemma aligned_optimizeRects (s : Z) (rects : list Rect.t) :
  Forall (aligned s) rects -> Forall (aligned s) (optimizeRects rects).
Proof.
  destruct rects as [|first rest]; [auto|].
  intros F. inversion F; subst. rewrite optimizeRects_cons.
  apply aligned_merge_loop; assumption.
Qed.

(** On the grid, covering the anchor of a cell is covering the cell. *)
Lemma covers_cell_anchor (s px py : Z) (r : Rect.t) :
  1 <= s -> (s | px) -> aligned s r ->
  covers_cell (Rect.mk px py s s) r = covers px py r.
Proof.
  intros Hs [a Ha] ([b Hb] & [c Hc] & Hw & Hh).
  unfold covers_cell, covers; simpl. rewrite Hh, Z.eqb_refl, andb_true_r.
  destruct (Rect.y r =? py); simpl; [|reflexivity].
  destruct (Rect.x r <=? px) eqn:E1; simpl; [|reflexivity].
  apply Z.leb_le in E1.
  destruct (px <? Rect.x r + Rect.width r) eqn:E2.
  - apply Z.ltb_lt in E2. apply Z.leb_le.
    assert (a < b + c) by nia. nia.
  - apply Z.ltb_ge in E2. apply Z.leb_gt. lia.
Qed.

Lemma filter_covers_cell (s px py : Z) (l : list Rect.t) :
  1 <= s -> (s | px) -> Forall (aligned s) l ->
  filter (covers_cell (Rect.mk px py s s)) l = filter (covers px py) l.
Proof.
  intros Hs Hd F. induction F as [|r l Hr F IH]; simpl; [reflexivity|].
  rewrite covers_cell_anchor, IH by assumption. reflexivity.
Qed.

End Merge.

(** ** Cells of the grid inside a bucket *)

Section GridCells.
Variable s : Z.
Hypothesis s_pos : 1 <= s.

Lemma count_occ_filter {A : Type} (dec : forall a b : A, {a = b} + {a <> b})
      (f : A -> bool) (l : list A) (a : A) :
  count_occ dec (filter f l) a = if f a then count_occ dec l a else O.
Proof.
  induction l as [|b l IH]; simpl.
  - destruct (f a); reflexivity.
  - destruct (f b) eqn:Fb; simpl; destruct (dec b a) as [->|N]; rewrite ?IH.
    + rewrite Fb. reflexivity.
    + reflexivity.
    + rewrite Fb. reflexivity.
    + reflexivity.
Qed.

Lemma cell_inj (p q : Z * Z) : cell s p = cell s q -> p = q.
Proof. destruct p, q. unfold cell; simpl. congruence. Qed.

Lemma count_occ_cells (pts : list (Z * Z)) (p : Z * Z) :
  count_occ Rect.eq_dec (map (cell s) pts) (cell s p) = count_occ point_eq_dec pts p.
Proof.
  induction pts as [|q pts IH]; simpl; [reflexivity|].
  destruct (Rect.eq_dec (cell s q) (cell s p)) as [E|N], (point_eq_dec q p) as [E'|N'];
    rewrite IH; try reflexivity.
  - apply (cell_inj q p) in E. contradiction.
  - subst q. exfalso. apply N. reflexivity.
Qed.

Lemma covers_cell_point (px py : Z) (p : Z * Z) :
  (s | px) -> (s | fst p) ->
  covers px py (cell s p) = if point_eq_dec p (px, py) then true else false.
Proof.
  intros [a Ha] [b Hb]. destruct p as [qx qy]. simpl in Hb.
  unfold covers, cell; simpl.
  destruct (point_eq_dec (qx, qy) (px, py)) as [E|N].
  - injection E as -> ->. rewrite Z.eqb_refl, Z.leb_refl. simpl. apply Z.ltb_lt. lia.
  - destruct (qy =? py) eqn:E1; simpl; [|reflexivity].
    destruct (qx <=? px) eqn:E2; simpl; [|reflexivity].
    apply Z.eqb_eq in E1. apply Z.leb_le in E2. apply Z.ltb_ge.
    assert (Hne : qx <> px) by congruence.
    assert (b <> a) by (intros ->; lia).
    assert (b <= a) by nia.
    assert (b + 1 <= a) by lia. nia.
Qed.

Lemma cover_count_cells (px py : Z) (pts : list (Z * Z)) :
  (s | px) -> Forall (fun p => (s | fst p)) pts ->
  cover_count px py (map (cell s) pts) = count_occ point_eq_dec pts (px, py).
Proof.
  intros Hd F. induction F as [|p pts Hp F IH]; [reflexivity|].
  simpl map. rewrite cover_count_cons, IH, covers_cell_point by assumption.
  simpl. destruct (point_eq_dec p (px, py)); reflexivity.
Qed.

Lemma aligned_cells (pts : list (Z * Z)) :
  Forall (fun p => (s | fst p)) pts -> Forall (aligned s) (map (cell s) pts).
Proof.
  intros F. induction F as [|p pts Hp F IH]; simpl; constructor; auto.
  unfold aligned, cell; simpl. repeat split; auto; try lia. exists 1. lia.
Qed.

Lemma nonneg_aligned (l : list Rect.t) :
  Forall (aligned s) l -> Forall (fun r => 0 <= Rect.width r) l.
Proof. apply Forall_impl. unfold aligned. tauto. Qed.

End GridCells.

(** ** Quantisation *)

Lemma is_zero_alpha (a : Z) : is_zero (alpha_of (Some a)) = (a =? 0).
Proof.
  unfold is_zero, alpha_of, Qeq_bool; simpl. destruct a; reflexivity.
Qed.

Lemma key_at_alpha (pb : PixelBuffer) (px py a : Z) :
  data_at (data pb) ((py * canvas_width pb + px) * 4 + 3) = Some a ->
  key_at pb px py =
  if a =? 0 then None
  else Some (colorKey (data_at (data pb) ((py * canvas_width pb + px) * 4))
                      (data_at (data pb) ((py * canvas_width pb + px) * 4 + 1))
                      (data_at (data pb) ((py * canvas_width pb + px) * 4 + 2))
                      (alpha_of (Some a))).
Proof.
  intros E. unfold key_at. rewrite E, is_zero_alpha. reflexivity.
Qed.

(** ** The buckets of the sampling pass *)

Section Pass.
Variable pb : PixelBuffer.
Variable s : Z.
Hypothesis s_pos : 1 <= s.

Lemma grid_filter_divides (k : string) :
  Forall (fun p => (s | fst p)) (filter (key_is pb k) (grid_points pb s)).
Proof.
  apply Forall_forall. intros [px py] I. apply filter_In in I. destruct I as [I _].
  apply grid_points_In in I; [|exact s_pos]. simpl. tauto.
Qed.

Lemma grid_count (px py : Z) (k : string) :
  In (px, py) (grid_points pb s) ->
  count_occ point_eq_dec (filter (key_is pb k) (grid_points pb s)) (px, py) =
  if key_is pb k (px, py) then 1%nat else 0%nat.
Proof.
  intros I. rewrite count_occ_filter. destruct (key_is pb k (px, py)); [|reflexivity].
  apply NoDup_count_occ'; [apply grid_points_NoDup; exact s_pos | exact I].
Qed.

(** An entry of the final map, seen from one anchor of the grid. *)
Lemma pass_entry (px py : Z) (k : string) (b : list Rect.t) :
  In (px, py) (grid_points pb s) ->
  In (k, b) (fold_left (sample_step pb s) (grid_points pb s) []) ->
  count_occ Rect.eq_dec b (Rect.mk px py s s) =
    (if key_is pb k (px, py) then 1%nat else 0%nat) /\
  List.length (filter (covers_cell (Rect.mk px py s s)) (optimizeRects (sort b))) =
    (if key_is pb k (px, py) then 1%nat else 0%nat).
Proof.
  intros G I. apply entry_fold in I. destruct I as [-> _].
  assert (D : (s | px)) by (apply grid_points_In in G; tauto).
  pose proof (grid_filter_divides k) as F.
  split.
  - change (Rect.mk px py s s) with (cell s (px, py)).
    rewrite count_occ_cells. apply grid_count. exact G.
  - rewrite (filter_covers_cell s) by
        (auto using aligned_optimizeRects, Forall_sort, aligned_cells).
    fold (cover_count px py
            (optimizeRects (sort (map (cell s) (filter (key_is pb k) (grid_points pb s)))))).
    rewrite cover_count_optimizeRects
      by (apply (nonneg_aligned s), Forall_sort, aligned_cells; auto).
    rewrite (cover_count_perm _ _ _ _ (sort_perm _)).
    rewrite cover_count_cells by assumption. apply grid_count. exact G.
Qed.

End Pass.

(** ** Strings *)

Section Strings.
Local Open Scope string_scope.

Lemma append_assoc (a b c : string) : (a ++ b) ++ c = a ++ (b ++ c).
Proof. induction a as [|ch a IH]; simpl; [reflexivity | rewrite IH; reflexivity]. Qed.

Lemma append_nil_r (a : string) : a ++ "" = a.
Proof. induction a as [|ch a IH]; simpl; [reflexivity | rewrite IH; reflexivity]. Qed.

Lemma join_app (l1 l2 : list string) : join (l1 ++ l2)%list = join l1 ++ join l2.
Proof.
  induction l1 as [|a l1 IH]; simpl; [reflexivity|].
  rewrite IH, append_assoc. reflexivity.
Qed.

Lemma fold_left_append {A : Type} (f : A -> string) (l : list A) (init : string) :
  fold_left (fun acc a => acc ++ f a) l init = init ++ join (map f l).
Proof.
  revert init. induction l as [|a l IH]; intros init; simpl.
  - rewrite append_nil_r. reflexivity.
  - rewrite IH, append_assoc. reflexivity.
Qed.

Lemma emit_color_join (init : string) (entry : string * list Rect.t) :
  emit_color init entry =
  init ++ join (map (fun e => rect_element (fst e) (snd e))
                    (map (fun rect => (rect, fst entry))
                         (optimizeRects (sort (snd entry))))).
Proof.
  destruct entry as [color rects]. unfold emit_color. rewrite fold_left_append.
  rewrite map_map. reflexivity.
Qed.

Lemma fold_emit_color (colorMap : ColorMap.t) (init : string) :
  fold_left emit_color colorMap init =
  init ++ join (map (fun e => rect_element (fst e) (snd e)) (emitted colorMap)).
Proof.
  revert init. induction colorMap as [|entry m IH]; intros init.
  - simpl. rewrite append_nil_r. reflexivity.
  - simpl fold_left. rewrite IH, emit_color_join.
    unfold emitted, merged_groups. simpl map at 4. simpl flat_map.
    rewrite map_app, join_app, append_assoc. reflexivity.
Qed.

(** The rectangle elements of the document are those of [emitted], in order. *)
Lemma svgPaths_join (colorMap : ColorMap.t) :
  svgPaths colorMap = join (map (fun e => rect_element (fst e) (snd e)) (emitted colorMap)).
Proof. unfold svgPaths. rewrite fold_emit_color. reflexivity. Qed.

Lemma In_emitted (colorMap : ColorMap.t) (k : string) (b : list Rect.t) (rect : Rect.t) :
  In (k, b) colorMap -> In rect (optimizeRects (sort b)) -> In (rect, k) (emitted colorMap).
Proof.
  intros I R. unfold emitted, merged_groups. apply in_flat_map.
  exists (k, optimizeRects (sort b)). split.
  - apply (in_map (fun entry => (fst entry, optimizeRects (sort (snd entry)))) _ _ I).
  - simpl. apply (in_map (fun rect' => (rect', k))). exact R.
Qed.

Lemma emitted_In (colorMap : ColorMap.t) (k : string) (rect : Rect.t) :
  In (rect, k) (emitted colorMap) ->
  exists b, In (k, b) colorMap /\ In rect (optimizeRects (sort b)).
Proof.
  unfold emitted, merged_groups. intros I. apply in_flat_map in I.
  destruct I as [[k' l] [I1 I2]]. apply in_map_iff in I1. destruct I1 as [[k0 b] [E I1]].
  simpl in E. injection E as -> <-. simpl in I2.
  apply in_map_iff in I2. destruct I2 as [r [E I2]]. injection E as -> ->.
  exists b. auto.
Qed.

End Strings.

(** ** Rounding *)

Lemma Math_round_half (v : Z) : Js.Math_round (inject_Z v / 2)%Q = (v + 1) / 2.
Proof.
  unfold Js.Math_round. rewrite Zdiv_Qdiv. apply Qfloor_comp.
  unfold Qeq, Qdiv, Qmult, Qplus, Qinv, inject_Z; cbn [Qnum Qden]. lia.
Qed.

Lemma quantize_Some (v : Z) : quantize (Some v) = Some ((v + 1) / 2 * 2).
Proof. unfold quantize; simpl. rewrite Math_round_half. reflexivity. Qed.

Lemma Math_round_alpha (a : Z) :
  Js.Math_round (inject_Z a / 255 * 20)%Q = (40 * a + 255) / 510.
Proof.
  unfold Js.Math_round. rewrite Zdiv_Qdiv. apply Qfloor_comp.
  unfold Qeq, Qdiv, Qmult, Qplus, Qinv, inject_Z; cbn [Qnum Qden]. lia.
Qed.

Lemma sampleRate_spec (pb : PixelBuffer) :
  sampleRate pb = spec_stride (canvas_width pb) (canvas_height pb).
Proof.
  unfold sampleRate, spec_stride, Js.Math_max, Js.Math_min, Js.Math_floor.
  rewrite Zdiv_Qdiv. reflexivity.
Qed.

Lemma sampleRate_pos (pb : PixelBuffer) : 1 <= sampleRate pb.
Proof. rewrite sampleRate_spec. unfold spec_stride. lia. Qed.

(** ** One anchor of the grid through the pass *)

Section Anchor.
Variable pb : PixelBuffer.
Variable s : Z.
Hypothesis s_pos : 1 <= s.

Lemma key_is_at (px py : Z) (k k' : string) :
  key_at pb px py = Some k -> key_is pb k' (px, py) = String.eqb k k'.
Proof. intros E. unfold key_is; simpl. rewrite E. reflexivity. Qed.

Lemma pass_anchor (px py : Z) (k : string) :
  In (px, py) (grid_points pb s) -> key_at pb px py = Some k ->
  exists b, In (k, b) (fold_left (sample_step pb s) (grid_points pb s) []) /\
            In (Rect.mk px py s s) b.
Proof.
  intros G K.
  assert (T : key_is pb k (px, py) = true)
    by (rewrite (key_is_at px py k k K); apply String.eqb_refl).
  exists (map (cell s) (filter (key_is pb k) (grid_points pb s))). split.
  - apply fold_entry. apply existsb_exists. exists (px, py). auto.
  - apply (in_map (cell s) _ (px, py)). apply filter_In. auto.
Qed.

Lemma pass_cells (k : string) (b : list Rect.t) (c : Rect.t) :
  In (k, b) (fold_left (sample_step pb s) (grid_points pb s) []) -> In c b ->
  exists px py, c = Rect.mk px py s s /\ In (px, py) (grid_points pb s) /\
                key_at pb px py = Some k.
Proof.
  intros I C. apply entry_fold in I. destruct I as [-> _].
  apply in_map_iff in C. destruct C as [[px py] [<- C]].
  apply filter_In in C. destruct C as [G T]. exists px, py. repeat split; auto.
  unfold key_is in T; simpl in T. destruct (key_at pb px py) as [k0|]; [|discriminate].
  apply String.eqb_eq in T. congruence.
Qed.

Lemma pass_keys (k : string) (b : list Rect.t) :
  In (k, b) (fold_left (sample_step pb s) (grid_points pb s) []) ->
  exists px py, In (px, py) (grid_points pb s) /\ key_at pb px py = Some k.
Proof.
  intros I. apply entry_fold in I. destruct I as [_ E].
  apply existsb_exists in E. destruct E as [[px py] [G T]]. exists px, py. split; auto.
  unfold key_is in T; simpl in T. destruct (key_at pb px py) as [k0|]; [|discriminate].
  apply String.eqb_eq in T. congruence.
Qed.

Lemma pass_transparent :
  (forall px py, In (px, py) (grid_points pb s) -> key_at pb px py = None) ->
  fold_left (sample_step pb s) (grid_points pb s) [] = [].
Proof.
  generalize (grid_points pb s) ([] : ColorMap.t).
  intros pts. induction pts as [|[px py] pts IH]; intros m H; simpl; [reflexivity|].
  rewrite sample_step_unfold; simpl. rewrite (H px py) by (left; reflexivity).
  apply IH. intros qx qy I. apply H. right. exact I.
Qed.

End Anchor.

(** ** The buckets of the pass are already in the order of the sort *)

Section ScanOrder.
Variable pb : PixelBuffer.
Variable s : Z.
Hypothesis s_pos : 1 <= s.

Lemma steps_increasing (fuel : nat) (limit from : Z) :
  StronglySorted Z.lt (steps fuel limit s from).
Proof.
  revert from. induction fuel as [|fuel IH]; intros from; simpl;
    destruct (from <? limit); try constructor; auto.
  apply Forall_forall. intros v I. apply steps_lower in I; lia.
Qed.

Lemma StronglySorted_app {A : Type} (R : A -> A -> Prop) (l1 l2 : list A) :
  StronglySorted R l1 -> StronglySorted R l2 ->
  (forall a b, In a l1 -> In b l2 -> R a b) ->
  StronglySorted R (l1 ++ l2).
Proof.
  intros S1 S2 H. induction S1 as [|a l1 S1 IH F]; simpl; [exact S2|].
  constructor.
  - apply IH. intros a' b Ia Ib. apply H; [right; exact Ia | exact Ib].
  - apply Forall_app. split; [exact F|].
    apply Forall_forall. intros b Ib. apply H; [left; reflexivity | exact Ib].
Qed.

Lemma StronglySorted_filter_map {A B : Type} (R : A -> A -> Prop) (R' : B -> B -> Prop)
      (f : A -> B) (keep : A -> bool) (l : list A) :
  (forall a b, R a b -> R' (f a) (f b)) ->
  StronglySorted R l -> StronglySorted R' (map f (filter keep l)).
Proof.
  intros M S. induction S as [|a l S IH F]; simpl; [constructor|].
  destruct (keep a); simpl; [|exact IH].
  constructor; [exact IH|].
  apply Forall_forall. intros b Ib. apply in_map_iff in Ib.
  destruct Ib as [c [<- Ic]]. apply filter_In in Ic. destruct Ic as [Ic _].
  apply M. revert c Ic. apply Forall_forall. exact F.
Qed.

Lemma grid_points_scan_order : StronglySorted scan_lt (grid_points pb s).
Proof.
  unfold grid_points.
  generalize (steps_increasing (Z.to_nat (canvas_width pb)) (canvas_width pb) 0).
  generalize (steps (Z.to_nat (canvas_width pb)) (canvas_width pb) s 0).
  generalize (steps_increasing (Z.to_nat (canvas_height pb)) (canvas_height pb) 0).
  generalize (steps (Z.to_nat (canvas_height pb)) (canvas_height pb) s 0).
  intros ys Sy xs Sx. induction Sy as [|y0 ys Sy IH Fy]; simpl; [constructor|].
  apply StronglySorted_app; [| exact IH |].
  - clear -Sx. induction Sx as [|x0 xs Sx IHx Fx]; simpl; constructor; [exact IHx|].
    apply Forall_forall. intros q Iq. apply in_map_iff in Iq.
    destruct Iq as [x1 [<- I1]]. right. simpl. split; [reflexivity|].
    revert x1 I1. apply Forall_forall. exact Fx.
  - intros p q Ip Iq. apply in_map_iff in Ip. destruct Ip as [x1 [<- _]].
    apply in_flat_map in Iq. destruct Iq as [y1 [Iy Iq]].
    apply in_map_iff in Iq. destruct Iq as [x2 [<- _]]. left. simpl.
    revert y1 Iy. apply Forall_forall. exact Fy.
Qed.

Lemma cell_order (p q : Z * Z) : scan_lt p q -> rect_le (cell s p) (cell s q).
Proof.
  unfold scan_lt, rect_le, compareFn, cell; simpl. intros [L|[E L]].
  - replace (snd p =? snd q) with false by (symmetry; apply Z.eqb_neq; lia). lia.
  - rewrite E, Z.eqb_refl. lia.
Qed.

(** The sort leaves every bucket of the pass as it is. *)
Lemma pass_bucket_sorted (k : string) (b : list Rect.t) :
  In (k, b) (fold_left (sample_step pb s) (grid_points pb s) []) -> sort b = b.
Proof.
  intros I. apply entry_fold in I. destruct I as [-> _].
  apply sort_id, StronglySorted_Sorted.
  apply (StronglySorted_filter_map scan_lt rect_le (cell s) (key_is pb k)
           (grid_points pb s) cell_order grid_points_scan_order).
Qed.

End ScanOrder.

(** * The claims *)

(** ** C7: stride selection *)

(** C7.  For a buffer of width and height at least 1 the conversion samples
    at stride [max(1, floor(min(W,H)/400))]: every cell it creates is a
    square of that side anchored on the grid of that stride, and every grid
    anchor whose pixel is kept has its cell in the bucket of its key.  When
    the shorter side is at most 400 the stride is 1 and every kept pixel of
    the buffer has its own 1-by-1 cell. *)
Theorem stride_selection (pb : PixelBuffer) :
  1 <= canvas_width pb -> 1 <= canvas_height pb ->
  let s := spec_stride (canvas_width pb) (canvas_height pb) in
  sampleRate pb = s /\
  (Z.min (canvas_width pb) (canvas_height pb) <= 400 -> s = 1) /\
  exists colorMap,
    group_pixels pb (sampleRate pb) = Some colorMap /\
    convert pb =
      Some (svg_document (canvas_width pb) (canvas_height pb) (svgPaths colorMap)) /\
    (forall k b c, In (k, b) colorMap -> In c b ->
       Rect.width c = s /\ Rect.height c = s /\
       (s | Rect.x c) /\ (s | Rect.y c) /\
       0 <= Rect.x c < canvas_width pb /\ 0 <= Rect.y c < canvas_height pb) /\
    (forall px py k,
       0 <= px < canvas_width pb -> 0 <= py < canvas_height pb ->
       (s | px) -> (s | py) -> key_at pb px py = Some k ->
       exists b, In (k, b) colorMap /\ In (Rect.mk px py s s) b) /\
    (Z.min (canvas_width pb) (canvas_height pb) <= 400 ->
     forall px py k,
       0 <= px < canvas_width pb -> 0 <= py < canvas_height pb ->
       key_at pb px py = Some k ->
       exists b, In (k, b) colorMap /\ In (Rect.mk px py 1 1) b).
Proof.
  intros HW HH s.
  assert (Es : sampleRate pb = s) by apply sampleRate_spec.
  assert (Hs : 1 <= s) by (rewrite <- Es; apply sampleRate_pos).
  assert (Small : Z.min (canvas_width pb) (canvas_height pb) <= 400 -> s = 1).
  { intros Hm. unfold s, spec_stride.
    assert (Z.min (canvas_width pb) (canvas_height pb) / 400 <= 1).
    { apply Z.div_le_upper_bound; lia. }
    lia. }
  split; [exact Es|]. split; [exact Small|].
  exists (fold_left (sample_step pb s) (grid_points pb s) []).
  assert (Anchors : forall px py k,
             0 <= px < canvas_width pb -> 0 <= py < canvas_height pb ->
             (s | px) -> (s | py) -> key_at pb px py = Some k ->
             exists b, In (k, b) (fold_left (sample_step pb s) (grid_points pb s) []) /\
                       In (Rect.mk px py s s) b).
  { intros px py k Hx Hy Dx Dy K. apply pass_anchor; [|exact K].
    apply grid_points_In; auto. }
  split; [rewrite Es; apply group_pixels_grid; exact Hs|].
  split.
  { unfold convert, convert_at. rewrite Es, group_pixels_grid by exact Hs. reflexivity. }
  split.
  { intros k b c I C. destruct (pass_cells pb s k b c I C) as (px & py & -> & G & _).
    apply grid_points_In in G; [|exact Hs]. simpl. tauto. }
  split; [exact Anchors|].
  intros Hm px py k Hx Hy K. specialize (Small Hm).
  assert (Dx : (s | px)) by (rewrite Small; exists px; lia).
  assert (Dy : (s | py)) by (rewrite Small; exists py; lia).
  destruct (Anchors px py k Hx Hy Dx Dy K) as [b [I C]].
  exists b. rewrite <- Small. auto.
Qed.

Lemma stride_selection_witness :
  (1 <= canvas_width red2x1 /\ 1 <= canvas_height red2x1) /\ sampleRate red2x1 = 1.
Proof.
  assert (HW : 1 <= canvas_width red2x1) by (simpl; lia).
  assert (HH : 1 <= canvas_height red2x1) by (simpl; lia).
  split; [split; assumption|].
  exact (proj1 (stride_selection red2x1 HW HH)).
Defined.

(** ** C9: every kept sample ends in exactly one rectangle *)

(** C9.  At any stride [s >= 1], a grid anchor whose alpha byte is positive
    is kept under one key [k]; the map has one entry per key; the cell of the
    anchor occurs once in the bucket of [k] and in no other bucket; and among
    the rectangles obtained by sorting and merging a bucket, exactly one
    covers the cell when the bucket is that of [k], and none otherwise. *)
Theorem sample_in_exactly_one_rect (pb : PixelBuffer) (s px py a : Z) :
  1 <= s ->
  0 <= px < canvas_width pb -> 0 <= py < canvas_height pb ->
  (s | px) -> (s | py) ->
  data_at (data pb) ((py * canvas_width pb + px) * 4 + 3) = Some a -> 0 < a ->
  exists colorMap k,
    group_pixels pb s = Some colorMap /\
    key_at pb px py = Some k /\
    NoDup (ColorMap.keys colorMap) /\
    (exists b, In (k, b) colorMap) /\
    (forall k' b, In (k', b) colorMap ->
       count_occ Rect.eq_dec b (Rect.mk px py s s) =
         (if String.eqb k' k then 1%nat else 0%nat) /\
       List.length (filter (covers_cell (Rect.mk px py s s)) (optimizeRects (sort b))) =
         (if String.eqb k' k then 1%nat else 0%nat)).
Proof.
  intros Hs Hx Hy Dx Dy A Hpos.
  assert (G : In (px, py) (grid_points pb s)) by (apply grid_points_In; auto).
  pose proof (key_at_alpha pb px py a A) as K.
  replace (a =? 0) with false in K by (symmetry; apply Z.eqb_neq; lia).
  eexists (fold_left (sample_step pb s) (grid_points pb s) []), _.
  split; [apply group_pixels_grid; exact Hs|].
  split; [exact K|].
  split; [apply NoDup_fold; constructor|].
  split.
  { destruct (pass_anchor pb s px py _ G K) as [b [I _]]. exists b. exact I. }
  intros k' b I. rewrite String.eqb_sym, <- (key_is_at pb px py _ k' K).
  apply pass_entry; assumption.
Qed.

Lemma sample_in_exactly_one_rect_witness :
  exists colorMap k,
    group_pixels red2x1 1 = Some colorMap /\
    key_at red2x1 1 0 = Some k /\
    NoDup (ColorMap.keys colorMap) /\
    (exists b, In (k, b) colorMap) /\
    (forall k' b, In (k', b) colorMap ->
       count_occ Rect.eq_dec b (Rect.mk 1 0 1 1) =
         (if String.eqb k' k then 1%nat else 0%nat) /\
       List.length (filter (covers_cell (Rect.mk 1 0 1 1)) (optimizeRects (sort b))) =
         (if String.eqb k' k then 1%nat else 0%nat)).
Proof.
  apply (sample_in_exactly_one_rect red2x1 1 1 0 255).
  - lia.
  - simpl; lia.
  - simpl; lia.
  - exists 1; reflexivity.
  - exists 0; reflexivity.
  - reflexivity.
  - lia.
Defined.

(** ** C6: transparency exclusion *)

(** C6.  When every pixel of the buffer has alpha byte 0, the sampling pass
    leaves the map empty, no rectangle is emitted, and the document is the
    bare [svg] element with no [rect] child. *)
Theorem transparent_buffer_no_rects (pb : PixelBuffer) :
  (forall px py, 0 <= px < canvas_width pb -> 0 <= py < canvas_height pb ->
     data_at (data pb) ((py * canvas_width pb + px) * 4 + 3) = Some 0) ->
  exists colorMap,
    group_pixels pb (sampleRate pb) = Some colorMap /\
    emitted colorMap = [] /\
    convert pb = Some (svg_document (canvas_width pb) (canvas_height pb) "").
Proof.
  intros T. exists [].
  assert (E : group_pixels pb (sampleRate pb) = Some []).
  { rewrite group_pixels_grid by apply sampleRate_pos. f_equal.
    apply pass_transparent. intros px py G.
    apply grid_points_In in G; [|apply sampleRate_pos].
    rewrite (key_at_alpha pb px py 0) by (apply T; tauto). reflexivity. }
  split; [exact E|]. split; [reflexivity|].
  unfold convert, convert_at. rewrite E. reflexivity.
Qed.

Lemma transparent_buffer_no_rects_witness :
  exists colorMap,
    group_pixels clear2x2 (sampleRate clear2x2) = Some colorMap /\
    emitted colorMap = [] /\
    convert clear2x2 = Some (svg_document 2 2 "").
Proof.
  apply (transparent_buffer_no_rects clear2x2).
  intros px py Hx Hy. simpl in Hx, Hy.
  assert (Cx : px = 0 \/ px = 1) by lia.
  assert (Cy : py = 0 \/ py = 1) by lia.
  destruct Cx as [-> | ->], Cy as [-> | ->]; reflexivity.
Defined.

(** ** C10: nearly transparent pixels *)

Lemma faint_alpha_prints_zero (a : Z) :
  1 <= a <= 6 -> Js.show_frac (quantize_alpha (alpha_of (Some a))) = "0"%string.
Proof.
  intros H.
  assert (C : a = 1 \/ a = 2 \/ a = 3 \/ a = 4 \/ a = 5 \/ a = 6) by lia.
  destruct C as [-> | [-> | [-> | [-> | [-> | ->]]]]]; reflexivity.
Qed.

(** C10.  A grid anchor whose alpha byte lies between 1 and 6 is not
    skipped; the opacity of its key is 0, so its key reads [rgba(R,G,B,0)];
    the document contains a [rect] element with that fill, and the rectangle
    of that element covers the cell of the anchor. *)
Theorem faint_pixels_emit_transparent_rects (pb : PixelBuffer) (s px py r g b a : Z) :
  1 <= s ->
  0 <= px < canvas_width pb -> 0 <= py < canvas_height pb ->
  (s | px) -> (s | py) ->
  data_at (data pb) ((py * canvas_width pb + px) * 4) = Some r ->
  data_at (data pb) ((py * canvas_width pb + px) * 4 + 1) = Some g ->
  data_at (data pb) ((py * canvas_width pb + px) * 4 + 2) = Some b ->
  data_at (data pb) ((py * canvas_width pb + px) * 4 + 3) = Some a ->
  1 <= a <= 6 ->
  let fill := ("rgba(" ++ Js.digits ((r + 1) / 2 * 2) ++ "," ++ Js.digits ((g + 1) / 2 * 2)
                 ++ "," ++ Js.digits ((b + 1) / 2 * 2) ++ ",0)")%string in
  key_at pb px py = Some fill /\
  exists colorMap rect before after,
    group_pixels pb s = Some colorMap /\
    In (rect, fill) (emitted colorMap) /\
    covers_cell (Rect.mk px py s s) rect = true /\
    convert_at pb s =
      Some ("<?xml version=" ++ Js.dq ++ "1.0" ++ Js.dq
            ++ " encoding=" ++ Js.dq ++ "UTF-8" ++ Js.dq
            ++ " standalone=" ++ Js.dq ++ "no" ++ Js.dq ++ "?>" ++ Js.nl
            ++ "<svg width=" ++ Js.dq ++ Js.digits (canvas_width pb) ++ Js.dq
            ++ " height=" ++ Js.dq ++ Js.digits (canvas_height pb) ++ Js.dq
            ++ " xmlns=" ++ Js.dq ++ "http://www.w3.org/2000/svg" ++ Js.dq
            ++ " viewBox=" ++ Js.dq ++ "0 0 " ++ Js.digits (canvas_width pb) ++ " "
            ++ Js.digits (canvas_height pb) ++ Js.dq ++ ">" ++ Js.nl ++ "  "
            ++ before
            ++ "<rect x=" ++ Js.dq ++ Js.digits (Rect.x rect) ++ Js.dq
            ++ " y=" ++ Js.dq ++ Js.digits (Rect.y rect) ++ Js.dq
            ++ " width=" ++ Js.dq ++ Js.digits (Rect.width rect) ++ Js.dq
            ++ " height=" ++ Js.dq ++ Js.digits (Rect.height rect) ++ Js.dq
            ++ " fill=" ++ Js.dq ++ fill ++ Js.dq ++ " />"
            ++ after ++ Js.nl ++ "</svg>")%string.
Proof.
  intros Hs Hx Hy Dx Dy R G B A Ha fill.
  assert (K : key_at pb px py = Some fill).
  { rewrite (key_at_alpha pb px py a A), R, G, B.
    replace (a =? 0) with false by (symmetry; apply Z.eqb_neq; lia).
    unfold colorKey. rewrite !quantize_Some, (faint_alpha_prints_zero a Ha).
    reflexivity. }
  split; [exact K|].
  assert (Gr : In (px, py) (grid_points pb s)) by (apply grid_points_In; auto).
  destruct (pass_anchor pb s px py fill Gr K) as [bk [I _]].
  destruct (pass_entry pb s Hs px py fill bk Gr I) as [_ L].
  rewrite (key_is_at pb px py fill fill K), String.eqb_refl in L.
  destruct (filter (covers_cell (Rect.mk px py s s)) (optimizeRects (sort bk)))
    as [|rect rest] eqn:F; [discriminate L|].
  assert (Fr : In rect (filter (covers_cell (Rect.mk px py s s)) (optimizeRects (sort bk))))
    by (rewrite F; left; reflexivity).
  apply filter_In in Fr. destruct Fr as [Ir Cr].
  pose proof (In_emitted _ fill bk rect I Ir) as E.
  destruct (in_split _ _ E) as (l1 & l2 & Sp).
  exists (fold_left (sample_step pb s) (grid_points pb s) []), rect,
    (join (map (fun e => rect_element (fst e) (snd e)) l1)),
    (join (map (fun e => rect_element (fst e) (snd e)) l2)).
  split; [apply group_pixels_grid; exact Hs|].
  split; [exact E|]. split; [exact Cr|].
  unfold convert_at. rewrite group_pixels_grid by exact Hs.
  rewrite svgPaths_join, Sp, map_app, join_app. cbn [map join fold_right fst snd].
  fold (join (map (fun e => rect_element (fst e) (snd e)) l2)).
  unfold svg_document, rect_element. rewrite !append_assoc. reflexivity.
Qed.

Lemma faint_pixels_emit_transparent_rects_witness :
  key_at faint1x1 0 0 = Some "rgba(10,20,30,0)"%string /\
  exists colorMap rect before after,
    group_pixels faint1x1 1 = Some colorMap /\
    In (rect, "rgba(10,20,30,0)"%string) (emitted colorMap) /\
    covers_cell (Rect.mk 0 0 1 1) rect = true /\
    convert_at faint1x1 1 =
      Some ("<?xml version=" ++ Js.dq ++ "1.0" ++ Js.dq
            ++ " encoding=" ++ Js.dq ++ "UTF-8" ++ Js.dq
            ++ " standalone=" ++ Js.dq ++ "no" ++ Js.dq ++ "?>" ++ Js.nl
            ++ "<svg width=" ++ Js.dq ++ "1" ++ Js.dq
            ++ " height=" ++ Js.dq ++ "1" ++ Js.dq
            ++ " xmlns=" ++ Js.dq ++ "http://www.w3.org/2000/svg" ++ Js.dq
            ++ " viewBox=" ++ Js.dq ++ "0 0 1 1" ++ Js.dq ++ ">" ++ Js.nl ++ "  "
            ++ before
            ++ "<rect x=" ++ Js.dq ++ Js.digits (Rect.x rect) ++ Js.dq
            ++ " y=" ++ Js.dq ++ Js.digits (Rect.y rect) ++ Js.dq
            ++ " width=" ++ Js.dq ++ Js.digits (Rect.width rect) ++ Js.dq
            ++ " height=" ++ Js.dq ++ Js.digits (Rect.height rect) ++ Js.dq
            ++ " fill=" ++ Js.dq ++ "rgba(10,20,30,0)" ++ Js.dq ++ " />"
            ++ after ++ Js.nl ++ "</svg>")%string.
Proof.
  apply (faint_pixels_emit_transparent_rects faint1x1 1 0 0 10 20 30 3).
  - lia.
  - simpl; lia.
  - simpl; lia.
  - exists 0; reflexivity.
  - exists 0; reflexivity.
  - reflexivity.
  - reflexivity.
  - reflexivity.
  - reflexivity.
  - lia.
Defined.

(** ** C8: the shape of the document *)

Lemma data_at_Some (d : list byte) (idx : Z) :
  0 <= idx < Z.of_nat (List.length d) ->
  exists v, data_at d idx = Some v /\ 0 <= v <= 255.
Proof.
  intros H. unfold data_at.
  replace (idx <? 0) with false by (symmetry; apply Z.ltb_ge; lia).
  destruct (nth_error d (Z.to_nat idx)) as [c|] eqn:E.
  - exists (Z.of_N (Byte.to_N c)). split; [reflexivity|].
    pose proof (Byte.to_N_bounded c). lia.
  - apply nth_error_None in E. lia.
Qed.

Lemma alpha_level (n : Z) :
  0 <= n <= 20 -> In (Js.Number_toString (inject_Z n / 20)%Q) alpha_levels.
Proof.
  intros H.
  assert (All : forallb
                  (fun m => existsb
                              (String.eqb
                                 (Js.Number_toString (inject_Z (Z.of_nat m) / 20)%Q))
                              alpha_levels)
                  (seq 0 21) = true) by (vm_compute; reflexivity).
  rewrite forallb_forall in All.
  specialize (All (Z.to_nat n)). rewrite Z2Nat.id in All by lia.
  assert (E : existsb (String.eqb (Js.Number_toString (inject_Z n / 20)%Q)) alpha_levels
              = true) by (apply All, in_seq; lia).
  apply existsb_exists in E. destruct E as [A [I E]].
  apply String.eqb_eq in E. rewrite E. exact I.
Qed.

Lemma quantized_alpha_level (a : Z) :
  0 <= a <= 255 ->
  In (Js.show_frac (quantize_alpha (alpha_of (Some a)))) alpha_levels.
Proof.
  intros H. simpl. rewrite Math_round_alpha. apply alpha_level.
  assert ((40 * a + 255) / 510 < 21) by (apply Z.div_lt_upper_bound; lia).
  assert (0 <= (40 * a + 255) / 510) by (apply Z.div_pos; lia).
  lia.
Qed.

(** In a well-formed buffer every key reads [rgba(R,G,B,A)]. *)
Lemma key_form (pb : PixelBuffer) (px py : Z) (k : string) :
  well_formed pb ->
  0 <= px < canvas_width pb -> 0 <= py < canvas_height pb ->
  key_at pb px py = Some k ->
  exists R G B A,
    (0 <= R <= 256 /\ 0 <= G <= 256 /\ 0 <= B <= 256) /\ In A alpha_levels /\
    k = ("rgba(" ++ Js.digits R ++ "," ++ Js.digits G ++ "," ++ Js.digits B
           ++ "," ++ A ++ ")")%string.
Proof.
  intros (W0 & H0 & L) Hx Hy K.
  assert (Ix : 0 <= (py * canvas_width pb + px) * 4 /\
               (py * canvas_width pb + px) * 4 + 3 < Z.of_nat (List.length (data pb)))
    by (rewrite L; nia).
  destruct (data_at_Some (data pb) ((py * canvas_width pb + px) * 4)) as (r & Er & Br);
    [lia|].
  destruct (data_at_Some (data pb) ((py * canvas_width pb + px) * 4 + 1)) as (g & Eg & Bg);
    [lia|].
  destruct (data_at_Some (data pb) ((py * canvas_width pb + px) * 4 + 2)) as (b & Eb & Bb);
    [lia|].
  destruct (data_at_Some (data pb) ((py * canvas_width pb + px) * 4 + 3)) as (a & Ea & Ba);
    [lia|].
  rewrite (key_at_alpha pb px py a Ea), Er, Eg, Eb in K.
  destruct (a =? 0); [discriminate K|]. injection K as <-.
  exists ((r + 1) / 2 * 2), ((g + 1) / 2 * 2), ((b + 1) / 2 * 2),
    (Js.show_frac (quantize_alpha (alpha_of (Some a)))).
  split; [|split].
  - assert (Q : forall v, 0 <= v <= 255 -> 0 <= (v + 1) / 2 * 2 <= 256).
    { intros v Hv. pose proof (Z.div_mod (v + 1) 2 ltac:(lia)).
      pose proof (Z.mod_pos_bound (v + 1) 2 ltac:(lia)). lia. }
    auto.
  - apply quantized_alpha_level. exact Ba.
  - unfold colorKey. rewrite !quantize_Some. reflexivity.
Qed.

(** C8.  For a well-formed buffer the output is the XML declaration, then
    the root [svg] element that declares the canvas width and height, the
    SVG namespace and the view box [0 0 W H], whose children are [rect]
    elements with [x], [y], [width], [height] and [fill] attributes; every
    fill reads [rgba(R,G,B,A)] with [A] one of the decimal fractions
    0, 0.05, ..., 0.95, 1.  For a 10-by-10 buffer the stride is 1 and the
    declared size is 10 by 10 whatever the rectangles. *)
Theorem document_shape (pb : PixelBuffer) :
  well_formed pb ->
  (exists rects : list (Rect.t * string),
    convert pb =
      Some ("<?xml version=" ++ Js.dq ++ "1.0" ++ Js.dq
            ++ " encoding=" ++ Js.dq ++ "UTF-8" ++ Js.dq
            ++ " standalone=" ++ Js.dq ++ "no" ++ Js.dq ++ "?>" ++ Js.nl
            ++ "<svg width=" ++ Js.dq ++ Js.digits (canvas_width pb) ++ Js.dq
            ++ " height=" ++ Js.dq ++ Js.digits (canvas_height pb) ++ Js.dq
            ++ " xmlns=" ++ Js.dq ++ "http://www.w3.org/2000/svg" ++ Js.dq
            ++ " viewBox=" ++ Js.dq ++ "0 0 " ++ Js.digits (canvas_width pb) ++ " "
            ++ Js.digits (canvas_height pb) ++ Js.dq ++ ">" ++ Js.nl ++ "  "
            ++ join (map (fun e : Rect.t * string =>
                            "<rect x=" ++ Js.dq ++ Js.digits (Rect.x (fst e)) ++ Js.dq
                            ++ " y=" ++ Js.dq ++ Js.digits (Rect.y (fst e)) ++ Js.dq
                            ++ " width=" ++ Js.dq ++ Js.digits (Rect.width (fst e)) ++ Js.dq
                            ++ " height=" ++ Js.dq ++ Js.digits (Rect.height (fst e))
                            ++ Js.dq ++ " fill=" ++ Js.dq ++ snd e ++ Js.dq ++ " />")
                         rects)
            ++ Js.nl ++ "</svg>")%string /\
    forall rect fill, In (rect, fill) rects ->
      exists R G B A,
        (0 <= R <= 256 /\ 0 <= G <= 256 /\ 0 <= B <= 256) /\ In A alpha_levels /\
        fill = ("rgba(" ++ Js.digits R ++ "," ++ Js.digits G ++ "," ++ Js.digits B
                  ++ "," ++ A ++ ")")%string) /\
  (canvas_width pb = 10 -> canvas_height pb = 10 ->
   sampleRate pb = 1 /\
   exists paths,
     convert pb =
       Some ("<?xml version=" ++ Js.dq ++ "1.0" ++ Js.dq
             ++ " encoding=" ++ Js.dq ++ "UTF-8" ++ Js.dq
             ++ " standalone=" ++ Js.dq ++ "no" ++ Js.dq ++ "?>" ++ Js.nl
             ++ "<svg width=" ++ Js.dq ++ "10" ++ Js.dq
             ++ " height=" ++ Js.dq ++ "10" ++ Js.dq
             ++ " xmlns=" ++ Js.dq ++ "http://www.w3.org/2000/svg" ++ Js.dq
             ++ " viewBox=" ++ Js.dq ++ "0 0 10 10" ++ Js.dq ++ ">" ++ Js.nl ++ "  "
             ++ paths ++ Js.nl ++ "</svg>")%string).
Proof.
  intros WF.
  assert (C : convert pb =
              Some (svg_document (canvas_width pb) (canvas_height pb)
                      (join (map (fun e => rect_element (fst e) (snd e))
                                 (emitted (fold_left (sample_step pb (sampleRate pb))
                                             (grid_points pb (sampleRate pb)) [])))))).
  { unfold convert, convert_at. rewrite group_pixels_grid by apply sampleRate_pos.
    rewrite svgPaths_join. reflexivity. }
  split.
  - exists (emitted (fold_left (sample_step pb (sampleRate pb))
                       (grid_points pb (sampleRate pb)) [])).
    split.
    + rewrite C. reflexivity.
    + intros rect fill I. apply emitted_In in I. destruct I as (b & I & _).
      apply pass_keys in I. destruct I as (px & py & G & K).
      apply grid_points_In in G; [|apply sampleRate_pos].
      apply (key_form pb px py fill WF); tauto.
  - intros EW EH. split.
    + rewrite sampleRate_spec, EW, EH. reflexivity.
    + eexists. rewrite C, EW, EH. unfold svg_document. reflexivity.
Qed.

Lemma document_shape_witness :
  well_formed red2x1 /\
  exists rects,
    convert red2x1 =
    Some (svg_document 2 1 (join (map (fun e => rect_element (fst e) (snd e)) rects))).
Proof.
  assert (WF : well_formed red2x1) by (unfold well_formed; simpl; lia).
  split; [exact WF|].
  destruct (document_shape red2x1 WF) as [[rects [C _]] _].
  exists rects. exact C.
Defined.

(** ** C1: the end-to-end example *)

(** C1 as stated fails: the fill of the merged rectangle is not
    [rgba(254,0,0,1)]. *)
Lemma red2x1_fill_is_not_254 :
  ~ (exists colorMap,
       group_pixels red2x1 1 = Some colorMap /\
       emitted colorMap = [(Rect.mk 0 0 2 1, "rgba(254,0,0,1)"%string)]).
Proof.
  intros (colorMap & G & E). vm_compute in G. injection G as <-.
  vm_compute in E. discriminate E.
Qed.

(** C1, amended.  For the 2-by-1 buffer of two pixels (255,0,0,255) the
    stride is 1 and the pipeline emits exactly one merged rectangle
    [{x:0, y:0, width:2, height:1}], with fill [rgba(256,0,0,1)]
    ([Math.round(127.5)*2] is 256); the document declares width 2 and
    height 1. *)
Theorem red2x1_conversion :
  sampleRate red2x1 = 1 /\
  Js.Math_round (inject_Z 255 / 2)%Q * 2 = 256 /\
  exists colorMap,
    group_pixels red2x1 1 = Some colorMap /\
    emitted colorMap = [(Rect.mk 0 0 2 1, "rgba(256,0,0,1)"%string)] /\
    convert red2x1 =
      Some (svg_document 2 1 (rect_element (Rect.mk 0 0 2 1) "rgba(256,0,0,1)")) /\
    convert red2x1 =
      Some ("<?xml version=" ++ Js.dq ++ "1.0" ++ Js.dq
            ++ " encoding=" ++ Js.dq ++ "UTF-8" ++ Js.dq
            ++ " standalone=" ++ Js.dq ++ "no" ++ Js.dq ++ "?>" ++ Js.nl
            ++ "<svg width=" ++ Js.dq ++ "2" ++ Js.dq ++ " height=" ++ Js.dq ++ "1" ++ Js.dq
            ++ " xmlns=" ++ Js.dq ++ "http://www.w3.org/2000/svg" ++ Js.dq
            ++ " viewBox=" ++ Js.dq ++ "0 0 2 1" ++ Js.dq ++ ">" ++ Js.nl ++ "  "
            ++ "<rect x=" ++ Js.dq ++ "0" ++ Js.dq ++ " y=" ++ Js.dq ++ "0" ++ Js.dq
            ++ " width=" ++ Js.dq ++ "2" ++ Js.dq ++ " height=" ++ Js.dq ++ "1" ++ Js.dq
            ++ " fill=" ++ Js.dq ++ "rgba(256,0,0,1)" ++ Js.dq ++ " />"
            ++ Js.nl ++ "</svg>")%string.
Proof.
  split; [reflexivity|]. split; [reflexivity|].
  eexists. split; [vm_compute; reflexivity|].
  split; [vm_compute; reflexivity|].
  split; vm_compute; reflexivity.
Qed.

(** ** C2: the keys of two neighbouring greys *)

(** C2 as stated fails: the pixels (100,100,100,255) and (101,101,101,255)
    get different keys. *)
Lemma gray_100_101_keys_differ :
  key_at gray100 0 0 = Some "rgba(100,100,100,1)"%string /\
  key_at gray101 0 0 = Some "rgba(102,102,102,1)"%string /\
  colorKey (Some 100) (Some 100) (Some 100) (alpha_of (Some 255)) <>
  colorKey (Some 101) (Some 101) (Some 101) (alpha_of (Some 255)).
Proof.
  split; [reflexivity|]. split; [reflexivity|].
  vm_compute. discriminate.
Qed.

(** C2, amended.  Under [rq = round(r/2)*2] with ties rounded up
    ([round(50.5) = 51]) an even channel value keeps its value and an odd one
    moves to the next even value; hence (100,100,100,255) has key
    [rgba(100,100,100,1)] while (101,101,101,255) has key
    [rgba(102,102,102,1)], the key of (102,102,102,255). *)
Theorem gray_keys :
  (forall v, quantize (Some v) = Some (if Z.even v then v else v + 1)) /\
  Js.Math_round (inject_Z 101 / 2)%Q = 51 /\
  colorKey (Some 100) (Some 100) (Some 100) (alpha_of (Some 255))
    = "rgba(100,100,100,1)"%string /\
  colorKey (Some 101) (Some 101) (Some 101) (alpha_of (Some 255))
    = "rgba(102,102,102,1)"%string /\
  colorKey (Some 102) (Some 102) (Some 102) (alpha_of (Some 255))
    = colorKey (Some 101) (Some 101) (Some 101) (alpha_of (Some 255)).
Proof.
  split.
  - intros v. rewrite quantize_Some. f_equal.
    destruct (Z.even v) eqn:E.
    + apply Z.even_spec in E. destruct E as [m ->].
      Z.div_mod_to_equations. lia.
    + assert (O : Z.odd v = true) by (rewrite <- Z.negb_even, E; reflexivity).
      apply Z.odd_spec in O. destruct O as [m ->].
      Z.div_mod_to_equations. lia.
  - repeat split; reflexivity.
Qed.

(** ** C4 and C5: what merges and what does not *)

Section SmallBuckets.

Lemma perm_pair {A : Type} (l : list A) (a b : A) :
  Permutation l [a; b] -> l = [a; b] \/ l = [b; a].
Proof.
  intros P. apply Permutation_sym in P. apply Permutation_length_2_inv in P. exact P.
Qed.

Lemma app_pair {A : Type} (l1 l2 : list A) (b c : A) :
  (l1 ++ l2)%list = [b; c] ->
  (l1 = [] /\ l2 = [b; c]) \/ (l1 = [b] /\ l2 = [c]) \/ (l1 = [b; c] /\ l2 = []).
Proof.
  destruct l1 as [|x1 [|x2 [|x3 l1]]]; simpl; intros E.
  - auto.
  - injection E as -> ->. auto.
  - injection E as -> -> ->. auto.
  - discriminate E.
Qed.

Lemma perm_triple {A : Type} (l : list A) (a b c : A) :
  Permutation l [a; b; c] ->
  l = [a; b; c] \/ l = [a; c; b] \/ l = [b; a; c] \/
  l = [b; c; a] \/ l = [c; a; b] \/ l = [c; b; a].
Proof.
  intros P.
  destruct (Permutation_vs_cons_inv P) as (l1 & l2 & ->).
  assert (Q : Permutation (l1 ++ l2) [b; c]).
  { apply Permutation_sym. apply (Permutation_cons_app_inv l1 l2 (a := a)).
    apply Permutation_sym. exact P. }
  apply perm_pair in Q. destruct Q as [Q|Q]; apply app_pair in Q;
    destruct Q as [[-> ->] | [[-> ->] | [-> ->]]]; simpl; auto 10.
Qed.

End SmallBuckets.

(** Evaluate the tests of the sort and of the merge on symbolic cells. *)
Ltac run_tests :=
  repeat match goal with
    | |- context [Z.eqb ?a ?b] =>
        destruct (Z.eqb_spec a b); try (exfalso; lia)
    | |- context [Z.leb ?a ?b] =>
        destruct (Z.leb_spec a b); try (exfalso; lia)
    | |- context [andb _ _] => cbn [andb]
    end.

Ltac run_sort :=
  repeat (progress (cbn [sort insert_sorted]; unfold compareFn;
                    cbn [Rect.x Rect.y Rect.width Rect.height]; run_tests)).

Ltac run_merge :=
  rewrite optimizeRects_cons;
  repeat (rewrite merge_loop_cons; unfold mergeable, extend;
          cbn [Rect.x Rect.y Rect.width Rect.height]; run_tests);
  cbn [merge_loop app].

Ltac run_bucket := run_sort; run_merge.

(** C4.  Three cells of side [s] on one row at [x = 0, s, 2s], in whatever
    order the bucket holds them, are sorted and merged into the single
    rectangle at [x = 0] of width [3s].  When the middle cell has another
    colour, the bucket of the first colour gives the two rectangles at
    [x = 0] and [x = 2s] of width [s], and the bucket of the middle colour
    gives the middle cell alone; the same holds for the buckets that the
    sampling pass builds from the three cells. *)
Theorem merge_three_in_a_row (s row : Z) :
  1 <= s ->
  let c0 := Rect.mk 0 row s s in
  let c1 := Rect.mk s row s s in
  let c2 := Rect.mk (2 * s) row s s in
  (forall l, Permutation l [c0; c1; c2] ->
     optimizeRects (sort l) = [Rect.mk 0 row (3 * s) s]) /\
  (forall l, Permutation l [c0; c2] -> optimizeRects (sort l) = [c0; c2]) /\
  optimizeRects (sort [c1]) = [c1] /\
  (forall k,
     emitted (push_rect (push_rect (push_rect [] k c0) k c1) k c2) =
     [(Rect.mk 0 row (3 * s) s, k)]) /\
  (forall k1 k2, k1 <> k2 ->
     emitted (push_rect (push_rect (push_rect [] k1 c0) k2 c1) k1 c2) =
     [(c0, k1); (c2, k1); (c1, k2)]).
Proof.
  intros Hs c0 c1 c2.
  assert (Three : forall l, Permutation l [c0; c1; c2] ->
                    optimizeRects (sort l) = [Rect.mk 0 row (3 * s) s]).
  { intros l P. apply perm_triple in P.
    destruct P as [-> | [-> | [-> | [-> | [-> | ->]]]]]; subst c0 c1 c2;
      run_bucket; replace (3 * s) with (s + s + s) by lia; reflexivity. }
  assert (Two : forall l, Permutation l [c0; c2] -> optimizeRects (sort l) = [c0; c2]).
  { intros l P. apply perm_pair in P.
    destruct P as [-> | ->]; subst c0 c2; run_bucket; reflexivity. }
  split; [exact Three|]. split; [exact Two|]. split; [reflexivity|]. split.
  - intros k. unfold push_rect, ColorMap.has.
    repeat (progress (cbn [ColorMap.get ColorMap.set negb app];
                      rewrite ?String.eqb_refl)).
    unfold emitted, merged_groups. cbn [map flat_map fst snd app].
    rewrite (Three [c0; c1; c2]) by reflexivity. reflexivity.
  - intros k1 k2 N. assert (N' : k2 <> k1) by congruence.
    apply String.eqb_neq in N, N'.
    unfold push_rect, ColorMap.has.
    repeat (progress (cbn [ColorMap.get ColorMap.set negb app];
                      rewrite ?String.eqb_refl, ?N, ?N')).
    unfold emitted, merged_groups. cbn [map flat_map fst snd app].
    rewrite (Two [c0; c2]) by reflexivity. reflexivity.
Qed.

Lemma merge_three_in_a_row_witness :
  1 <= 4 /\
  optimizeRects (sort [Rect.mk 4 7 4 4; Rect.mk 8 7 4 4; Rect.mk 0 7 4 4])
  = [Rect.mk 0 7 12 4].
Proof.
  assert (Hs : 1 <= 4) by lia.
  split; [exact Hs|].
  apply (proj1 (merge_three_in_a_row 4 7 Hs)).
  apply Permutation_sym.
  apply (Permutation_cons_app [Rect.mk 4 7 4 4; Rect.mk 8 7 4 4] [] (Rect.mk 0 7 4 4)).
  rewrite app_nil_r. apply Permutation_refl.
Defined.

Section Rows.

Lemma mergeable_same_row (current rect : Rect.t) :
  mergeable current rect = true ->
  Rect.y rect = Rect.y current /\ Rect.height rect = Rect.height current.
Proof.
  unfold mergeable. intros M. apply andb_prop in M. destruct M as [M _].
  apply andb_prop in M. destruct M as [My Mh].
  apply Z.eqb_eq in My, Mh. auto.
Qed.

Lemma mergeable_other_row (current rect : Rect.t) :
  Rect.y current <> Rect.y rect -> mergeable current rect = false.
Proof.
  intros N. unfold mergeable.
  replace (Rect.y rect =? Rect.y current) with false; [reflexivity|].
  symmetry. apply Z.eqb_neq. congruence.
Qed.

(** The merge never runs across a change of row. *)
Lemma merge_loop_row_break (current : Rect.t) (l : list Rect.t) (a b : Rect.t)
      (l2 : list Rect.t) :
  Rect.y a <> Rect.y b ->
  merge_loop [] current (l ++ a :: b :: l2) =
  (merge_loop [] current (l ++ [a]) ++ merge_loop [] b l2)%list.
Proof.
  intros N. revert current. induction l as [|d l IH]; intros current.
  - cbn [app]. rewrite (merge_loop_cons current a (b :: l2)), (merge_loop_cons current a []).
    destruct (mergeable current a) eqn:M.
    + rewrite merge_loop_cons, mergeable_other_row; [reflexivity|].
      apply mergeable_same_row in M. simpl. lia.
    + rewrite merge_loop_cons, (mergeable_other_row a b N). reflexivity.
  - cbn [app]. rewrite (merge_loop_cons current d (l ++ a :: b :: l2)),
      (merge_loop_cons current d (l ++ [a])).
    destruct (mergeable current d); rewrite IH; reflexivity.
Qed.

Lemma optimizeRects_row_break (l1 : list Rect.t) (a b : Rect.t) (l2 : list Rect.t) :
  Rect.y a <> Rect.y b ->
  optimizeRects (l1 ++ a :: b :: l2) =
  (optimizeRects (l1 ++ [a]) ++ optimizeRects (b :: l2))%list.
Proof.
  intros N. destruct l1 as [|c l1]; cbn [app]; rewrite !optimizeRects_cons.
  - rewrite merge_loop_cons, (mergeable_other_row a b N). reflexivity.
  - apply merge_loop_row_break. exact N.
Qed.

(** A merged rectangle keeps the row and the height of a cell it came from. *)
Lemma merge_loop_rows (rects : list Rect.t) (current r : Rect.t) :
  In r (merge_loop [] current rects) ->
  exists c, In c (current :: rects) /\
            Rect.y r = Rect.y c /\ Rect.height r = Rect.height c.
Proof.
  revert current. induction rects as [|rect rects IH]; intros current I.
  - simpl in I. destruct I as [<-|[]]. exists current. simpl. auto.
  - rewrite merge_loop_cons in I. destruct (mergeable current rect).
    + apply IH in I. destruct I as (c & [<-|I] & Ey & Eh).
      * exists current. simpl. auto.
      * exists c. simpl. auto.
    + destruct I as [<-|I].
      * exists current. simpl. auto.
      * apply IH in I. destruct I as (c & I & E). exists c. simpl. auto.
Qed.

Lemma optimizeRects_rows (rects : list Rect.t) (r : Rect.t) :
  In r (optimizeRects rects) ->
  exists c, In c rects /\ Rect.y r = Rect.y c /\ Rect.height r = Rect.height c.
Proof.
  destruct rects as [|first rest]; [intros []|].
  rewrite optimizeRects_cons. apply merge_loop_rows.
Qed.

End Rows.

(** C5.  Two cells of side [s] stacked at [(0,0)] and [(0,s)], in whatever
    order the bucket holds them, come out of the sort and merge as the same
    two rectangles, none of height [2s].  In general the merge never joins
    two neighbours of the scanned list that lie on different rows, and every
    rectangle it returns has the row and the height of one of the cells. *)
Theorem no_vertical_merge (s : Z) :
  1 <= s ->
  (forall l, Permutation l [Rect.mk 0 0 s s; Rect.mk 0 s s s] ->
     optimizeRects (sort l) = [Rect.mk 0 0 s s; Rect.mk 0 s s s] /\
     forall r, In r (optimizeRects (sort l)) -> Rect.height r <> 2 * s) /\
  (forall l1 a b l2, Rect.y a <> Rect.y b ->
     optimizeRects (l1 ++ a :: b :: l2) =
     (optimizeRects (l1 ++ [a]) ++ optimizeRects (b :: l2))%list) /\
  (forall l r, In r (optimizeRects (sort l)) ->
     exists c, In c l /\ Rect.y r = Rect.y c /\ Rect.height r = Rect.height c).
Proof.
  intros Hs. split; [|split].
  - intros l P.
    assert (E : optimizeRects (sort l) = [Rect.mk 0 0 s s; Rect.mk 0 s s s]).
    { apply perm_pair in P. destruct P as [-> | ->]; run_bucket; reflexivity. }
    split; [exact E|]. rewrite E. intros r [<-|[<-|[]]]; cbn [Rect.height]; lia.
  - intros l1 a b l2 N. apply optimizeRects_row_break. exact N.
  - intros l r I. apply optimizeRects_rows in I. destruct I as (c & I & E).
    exists c. split; [|exact E]. apply (Permutation_in _ (sort_perm l)). exact I.
Qed.

Lemma no_vertical_merge_witness :
  1 <= 3 /\
  optimizeRects (sort [Rect.mk 0 0 3 3; Rect.mk 0 3 3 3])
  = [Rect.mk 0 0 3 3; Rect.mk 0 3 3 3].
Proof.
  assert (Hs : 1 <= 3) by lia.
  split; [exact Hs|].
  apply (proj1 (no_vertical_merge 3 Hs)). apply Permutation_refl.
Defined.

(** * Further properties of the code *)

(** ** The handler and the loops *)

(** X1.  The handler always answers.  It answers 400 exactly when the form
    was read and its image entry is missing or the empty text; 500 exactly
    when reading the form was rejected, the entry is a non-empty text, or
    decoding threw; and otherwise with the document of the conversion, which
    always terminates. *)
Theorem handler_always_answers (File : Type) (decode : File -> option PixelBuffer)
        (formData : option (FormEntry File)) :
  exists r, POST decode formData = Some r /\
    match r with
    | Json_svg doc =>
        exists f pb, formData = Some (FileEntry f) /\ decode f = Some pb /\
                     convert pb = Some doc
    | Json_error e status =>
        (status = 400 /\ e = "No image file provided"%string /\
         (formData = Some NoEntry \/ formData = Some (TextEntry EmptyString))) \/
        (status = 500 /\ e = "Failed to convert image"%string /\
         (formData = None \/
          (exists text, formData = Some (TextEntry text) /\ text <> EmptyString) \/
          (exists f, formData = Some (FileEntry f) /\ decode f = None)))
    end.
Proof.
  destruct formData as [[|text|f]|]; simpl.
  - eexists. split; [reflexivity|]. left. auto.
  - destruct text as [|c text].
    + eexists. split; [reflexivity|]. left. auto.
    + eexists. split; [reflexivity|]. right. repeat split.
      right. left. eexists. split; [reflexivity | discriminate].
  - destruct (decode f) as [pb|] eqn:D.
    + unfold convert at 1, convert_at.
      rewrite group_pixels_grid by apply sampleRate_pos. simpl.
      eexists. split; [reflexivity|]. exists f, pb. repeat split; auto.
      unfold convert, convert_at. rewrite group_pixels_grid by apply sampleRate_pos.
      reflexivity.
    + eexists. split; [reflexivity|]. right. repeat split.
      right. right. exists f. auto.
  - eexists. split; [reflexivity|]. right. auto.
Qed.

(** X2.  With a stride of 0 or less the loops over a buffer with at least
    one pixel never end, whatever the fuel: the guard [Math.max(1, ...)] of
    the stride is what makes the conversion terminate. *)
Theorem nonpositive_stride_never_ends (pb : PixelBuffer) (s : Z) :
  s <= 0 -> 1 <= canvas_width pb -> 1 <= canvas_height pb ->
  (forall fuel py px m, px <= 0 -> loop_x fuel pb s py px m = None) /\
  (forall fuel py m, py <= 0 -> loop_y fuel pb s py m = None) /\
  convert_at pb s = None.
Proof.
  intros Hs HW HH.
  assert (X : forall fuel py px m, px <= 0 -> loop_x fuel pb s py px m = None).
  { induction fuel as [|fuel IH]; intros py px m Hp; simpl;
      replace (px <? canvas_width pb) with true by (symmetry; apply Z.ltb_lt; lia);
      [reflexivity | apply IH; lia]. }
  assert (Y : forall fuel py m, py <= 0 -> loop_y fuel pb s py m = None).
  { induction fuel as [|fuel IH]; intros py m Hp; simpl;
      replace (py <? canvas_height pb) with true by (symmetry; apply Z.ltb_lt; lia);
      [reflexivity | rewrite X by lia; reflexivity]. }
  split; [exact X|]. split; [exact Y|].
  unfold convert_at, group_pixels. rewrite Y by lia. reflexivity.
Qed.

Lemma nonpositive_stride_never_ends_witness : convert_at red2x1 0 = None.
Proof.
  apply (nonpositive_stride_never_ends red2x1 0); simpl; lia.
Defined.

(** X3.  At a stride [s >= 1] the two loops run the body once for each
    anchor [(x, y)] with [0 <= x < W], [0 <= y < H] and [x], [y] multiples
    of [s], each anchor once, row by row and from left to right. *)
Theorem sampling_visits_grid (pb : PixelBuffer) (s : Z) :
  1 <= s ->
  group_pixels pb s =
    Some (fold_left (fun m p => sample_pixel pb s (snd p) (fst p) m) (grid_points pb s) []) /\
  (forall px py, In (px, py) (grid_points pb s) <->
     (0 <= px < canvas_width pb /\ (s | px)) /\
     (0 <= py < canvas_height pb /\ (s | py))) /\
  NoDup (grid_points pb s) /\
  StronglySorted scan_lt (grid_points pb s).
Proof.
  intros Hs. split; [apply group_pixels_grid; exact Hs|].
  split; [intros px py; apply grid_points_In; exact Hs|].
  split; [apply grid_points_NoDup; exact Hs | apply grid_points_scan_order; exact Hs].
Qed.

Lemma sampling_visits_grid_witness :
  grid_points red2x1 1 = [(0, 0); (1, 0)] /\ NoDup (grid_points red2x1 1).
Proof.
  split; [reflexivity|].
  exact (proj1 (proj2 (proj2 (sampling_visits_grid red2x1 1 ltac:(lia))))).
Defined.

(** ** The map after the sampling pass *)

Section PassResult.
Import ColorMap ColorMapFacts.
Variable pb : PixelBuffer.
Variable s : Z.

Lemma keys_push_rect (m : t) (k : string) (r : Rect.t) :
  keys (push_rect m k r) = if has m k then keys m else (keys m ++ [k])%list.
Proof.
  unfold push_rect, has. destruct (get m k) as [v|] eqn:E; simpl.
  - rewrite E, keys_set. unfold has. rewrite E. reflexivity.
  - rewrite get_set, String.eqb_refl, !keys_set. unfold has.
    rewrite get_set, String.eqb_refl, E. reflexivity.
Qed.

Lemma has_existsb (m : t) (k : string) : has m k = existsb (String.eqb k) (keys m).
Proof.
  unfold has, keys. induction m as [|[k0 v0] m IH]; simpl; [reflexivity|].
  rewrite (String.eqb_sym k k0). destruct (String.eqb k0 k); simpl; [reflexivity|].
  exact IH.
Qed.

Lemma filter_filter {A : Type} (f g : A -> bool) (l : list A) :
  filter f (filter g l) = filter (fun a => g a && f a) l.
Proof.
  induction l as [|a l IH]; simpl; [reflexivity|].
  destruct (g a); simpl; [destruct (f a)|]; rewrite ?IH; reflexivity.
Qed.

Lemma keys_fold (pts : list (Z * Z)) (m : t) :
  keys (fold_left (sample_step pb s) pts m) =
  (keys m ++ filter (fun k => negb (existsb (String.eqb k) (keys m)))
                    (dedup_first (scan_keys pb pts)))%list.
Proof.
  revert m. induction pts as [|p pts IH]; intros m; simpl.
  - rewrite app_nil_r. reflexivity.
  - rewrite IH, sample_step_unfold. unfold scan_keys. simpl flat_map.
    fold (scan_keys pb pts).
    destruct (key_at pb (fst p) (snd p)) as [k|]; [|reflexivity].
    rewrite keys_push_rect, has_existsb. simpl app. simpl dedup_first. simpl filter.
    destruct (existsb (String.eqb k) (keys m)) eqn:E; simpl.
    + f_equal. rewrite filter_filter. apply filter_ext_in. intros k' _.
      destruct (String.eqb k' k) eqn:E'; simpl; [|reflexivity].
      apply String.eqb_eq in E'. subst k'. rewrite E. reflexivity.
    + rewrite <- app_assoc. simpl. do 2 f_equal.
      rewrite filter_filter. apply filter_ext. intros k'.
      rewrite existsb_app. simpl. rewrite orb_false_r, negb_orb, andb_comm.
      reflexivity.
Qed.

Lemma entries_of_keys (m : t) :
  NoDup (keys m) -> m = map (fun k => (k, bucket m k)) (keys m).
Proof.
  unfold keys, bucket. induction m as [|[k0 v0] m IH]; intros ND; simpl; [reflexivity|].
  inversion ND as [|? ? N1 N2]; subst. rewrite String.eqb_refl. f_equal.
  rewrite (IH N2) at 1. apply map_ext_in. intros k I.
  destruct (String.eqb k0 k) eqn:E; [|reflexivity].
  apply String.eqb_eq in E. subst k. contradiction.
Qed.

Lemma pass_map (pts : list (Z * Z)) :
  fold_left (sample_step pb s) pts [] =
  map (fun k => (k, map (cell s) (filter (key_is pb k) pts)))
      (dedup_first (scan_keys pb pts)).
Proof.
  rewrite (entries_of_keys (fold_left (sample_step pb s) pts []))
    by (apply NoDup_fold; constructor).
  rewrite keys_fold. simpl.
  assert (T : forall l : list string, filter (fun _ => true) l = l).
  { induction l as [|a l IHl]; simpl; [reflexivity | rewrite IHl; reflexivity]. }
  rewrite T. apply map_ext. intros k. rewrite bucket_fold. reflexivity.
Qed.

End PassResult.

(** X4.  At a stride [s >= 1] the sampling pass ends with one entry per
    key, the keys in the order in which the scan first meets them, and each
    bucket holding the cells of the anchors with its key, in scan order. *)
Theorem pass_result (pb : PixelBuffer) (s : Z) :
  1 <= s ->
  group_pixels pb s =
  Some (map (fun k => (k, map (fun p => Rect.mk (fst p) (snd p) s s)
                              (filter (key_is pb k) (grid_points pb s))))
            (dedup_first (scan_keys pb (grid_points pb s)))).
Proof.
  intros Hs. rewrite group_pixels_grid by exact Hs. rewrite pass_map. reflexivity.
Qed.

Lemma pass_result_witness :
  group_pixels red2x1 1 =
  Some [("rgba(256,0,0,1)"%string, [Rect.mk 0 0 1 1; Rect.mk 1 0 1 1])].
Proof.
  exact (pass_result red2x1 1 ltac:(lia)).
Defined.

(** X5.  The sort of line 131 never changes a bucket that the sampling pass
    built: the scan already leaves every bucket ordered by row, then column. *)
Theorem sort_leaves_pass_buckets (pb : PixelBuffer) (s : Z) (colorMap : ColorMap.t)
        (k : string) (b : list Rect.t) :
  1 <= s -> group_pixels pb s = Some colorMap -> In (k, b) colorMap ->
  sort b = b /\ Sorted rect_le b.
Proof.
  intros Hs G I. rewrite group_pixels_grid in G by exact Hs. injection G as <-.
  pose proof (pass_bucket_sorted pb s Hs k b I) as E.
  split; [exact E|]. rewrite <- E. apply sort_Sorted.
Qed.

Lemma sort_leaves_pass_buckets_witness :
  sort [Rect.mk 0 0 1 1; Rect.mk 1 0 1 1] = [Rect.mk 0 0 1 1; Rect.mk 1 0 1 1].
Proof.
  apply (proj1 (sort_leaves_pass_buckets red2x1 1
                  [("rgba(256,0,0,1)"%string, [Rect.mk 0 0 1 1; Rect.mk 1 0 1 1])]
                  "rgba(256,0,0,1)"%string [Rect.mk 0 0 1 1; Rect.mk 1 0 1 1]
                  ltac:(lia) ltac:(reflexivity) ltac:(left; reflexivity))).
Defined.

(** ** The comparator and the sort *)

(** X6.  The comparator of the sort is consistent: swapping its arguments
    negates the result, it is transitive, and it returns 0 exactly for two
    rectangles at the same [x] and [y].  (With such a comparator the result
    of [Array.prototype.sort] does not depend on the engine.) *)
Theorem compareFn_consistent :
  (forall a b, compareFn b a = - compareFn a b) /\
  (forall a b c, compareFn a b <= 0 -> compareFn b c <= 0 -> compareFn a c <= 0) /\
  (forall a b, compareFn a b = 0 <-> Rect.x a = Rect.x b /\ Rect.y a = Rect.y b) /\
  (forall a b, compareFn a b < 0 <->
     Rect.y a < Rect.y b \/ (Rect.y a = Rect.y b /\ Rect.x a < Rect.x b)).
Proof.
  split; [exact compareFn_flip|]. unfold compareFn. split; [|split].
  - intros a b c.
    destruct (Z.eqb_spec (Rect.y a) (Rect.y b)), (Z.eqb_spec (Rect.y b) (Rect.y c)),
      (Z.eqb_spec (Rect.y a) (Rect.y c)); lia.
  - intros a b. destruct (Z.eqb_spec (Rect.y a) (Rect.y b)); lia.
  - intros a b. destruct (Z.eqb_spec (Rect.y a) (Rect.y b)); lia.
Qed.

Lemma insert_sorted_stable (c a : Rect.t) (l : list Rect.t) :
  filter (same_place c) (insert_sorted a l) = filter (same_place c) (a :: l).
Proof.
  induction l as [|b l IH]; [reflexivity|].
  cbn [insert_sorted]. destruct (Z.leb_spec (compareFn a b) 0) as [L|G]; [reflexivity|].
  cbn [filter] in *. rewrite IH.
  destruct (same_place c a) eqn:Pa, (same_place c b) eqn:Pb; try reflexivity.
  exfalso. unfold same_place in Pa, Pb.
  apply andb_prop in Pa, Pb. destruct Pa as [Pa1 Pa2], Pb as [Pb1 Pb2].
  apply Z.eqb_eq in Pa1, Pa2, Pb1, Pb2.
  unfold compareFn in G. rewrite Pa2, Pb2, Z.eqb_refl in G. lia.
Qed.

(** X7.  The sort returns the rectangles of the bucket, each as often as
    before, ordered by row and then by column; rectangles at the same
    position keep their order, and an ordered bucket is returned as it is. *)
Theorem sort_orders_bucket (l : list Rect.t) :
  Permutation (sort l) l /\
  Sorted rect_le (sort l) /\
  (forall c, filter (same_place c) (sort l) = filter (same_place c) l) /\
  sort (sort l) = sort l.
Proof.
  split; [apply sort_perm|]. split; [apply sort_Sorted|]. split.
  - intros c. induction l as [|a l IH]; [reflexivity|].
    cbn [sort]. rewrite insert_sorted_stable. cbn [filter]. rewrite IH. reflexivity.
  - apply sort_id, sort_Sorted.
Qed.

(** ** The merge on any list of rectangles *)

Section MergeAny.

Lemma merge_loop_no_neighbours (rects : list Rect.t) (current : Rect.t) :
  forall first rest, merge_loop [] current rects = first :: rest ->
  (Rect.x first = Rect.x current /\ Rect.y first = Rect.y current /\
   Rect.height first = Rect.height current) /\
  merge_loop [] first rest = first :: rest.
Proof.
  revert current. induction rects as [|rect rects IH]; intros current first rest E.
  - simpl in E. injection E as <- <-. auto.
  - rewrite merge_loop_cons in E. destruct (mergeable current rect) eqn:M.
    + destruct (IH _ _ _ E) as [(Ex & Ey & Eh) R]. simpl in Ex, Ey, Eh. auto.
    + injection E as <- <-. split; [auto|].
      destruct (merge_loop [] rect rects) as [|f r] eqn:F.
      * reflexivity.
      * destruct (IH _ _ _ F) as [(Ex & Ey & Eh) R].
        rewrite merge_loop_cons.
        replace (mergeable current f) with false; [rewrite R; reflexivity|].
        rewrite <- M. unfold mergeable. rewrite Ex, Ey, Eh. reflexivity.
Qed.


Lemma merge_loop_totals (rects : list Rect.t) (current : Rect.t) :
  total_width (merge_loop [] current rects) = total_width (current :: rects) /\
  total_area (merge_loop [] current rects) = total_area (current :: rects) /\
  (List.length (merge_loop [] current rects) <= List.length (current :: rects))%nat.
Proof.
  unfold total_width, total_area.
  revert current. induction rects as [|rect rects IH]; intros current.
  - simpl. repeat split; lia.
  - rewrite merge_loop_cons. destruct (mergeable current rect) eqn:M.
    + destruct (IH (extend current rect)) as (W & A & L).
      rewrite W, A. apply mergeable_same_row in M. destruct M as [_ Mh].
      cbn [fold_right extend Rect.width Rect.height List.length] in *.
      rewrite Mh. repeat split; lia.
    + destruct (IH rect) as (W & A & L).
      cbn [fold_right List.length] in *.
      repeat split; lia.
Qed.

End MergeAny.

(** X8.  The result of [optimizeRects] is fully merged: merging it again
    changes nothing. *)
Theorem optimizeRects_idempotent (rects : list Rect.t) :
  optimizeRects (optimizeRects rects) = optimizeRects rects.
Proof.
  destruct rects as [|first rest]; [reflexivity|].
  rewrite optimizeRects_cons.
  destruct (merge_loop [] first rest) as [|f r] eqn:E.
  - reflexivity.
  - rewrite optimizeRects_cons.
    exact (proj2 (merge_loop_no_neighbours rest first f r E)).
Qed.


(** X10.  For rectangles of non-negative width, in any order, whose
    integers and sums stay within the range where numbers are exact (up to
    2^53), merging changes for no point of the plane the number of
    rectangles whose row is that of the point and whose columns contain it:
    the merge neither uncovers a point nor covers one twice. *)
Theorem optimizeRects_keeps_coverage (rects : list Rect.t) (px py : Z) :
  exact_sums rects ->
  List.length (filter (covers px py) (optimizeRects rects)) =
  List.length (filter (covers px py) rects).
Proof.
  intros F. apply (cover_count_optimizeRects px py rects).
  revert F. unfold exact_sums. apply Forall_impl. tauto.
Qed.

Lemma optimizeRects_keeps_coverage_witness :
  List.length (filter (covers 5 0)
                 (optimizeRects [Rect.mk 0 0 4 1; Rect.mk 4 0 4 1; Rect.mk 9 0 1 1])) = 1%nat.
Proof.
  rewrite (optimizeRects_keeps_coverage
             [Rect.mk 0 0 4 1; Rect.mk 4 0 4 1; Rect.mk 9 0 1 1] 5 0).
  - reflexivity.
  - unfold exact_sums. repeat constructor; simpl; lia.
Defined.

(** ** The rectangles of the whole document *)

Section Document.
Variable pb : PixelBuffer.
Variable s : Z.
Hypothesis s_pos : 1 <= s.

Lemma filter_emitted (f : Rect.t -> bool) (m : ColorMap.t) :
  List.length (filter f (map fst (emitted m))) =
  list_sum (map (fun e => List.length (filter f (optimizeRects (sort (snd e))))) m).
Proof.
  unfold emitted, merged_groups. induction m as [|[k b] m IH]; [reflexivity|].
  cbn [map flat_map fst snd list_sum fold_right].
  rewrite map_app, filter_app, length_app, IH, map_map. cbn [fst].
  rewrite map_id. reflexivity.
Qed.

Lemma sum_indicator (k0 : string) (l : list string) :
  NoDup l ->
  list_sum (map (fun k => if String.eqb k0 k then 1%nat else 0%nat) l) =
  if existsb (String.eqb k0) l then 1%nat else 0%nat.
Proof.
  induction 1 as [|k l N ND IH]; [reflexivity|].
  cbn [map list_sum fold_right existsb]. fold (list_sum (map (fun k => if String.eqb k0 k then 1%nat else 0%nat) l)).
  rewrite IH. destruct (String.eqb k0 k) eqn:E; [|reflexivity].
  apply String.eqb_eq in E. subst k.
  replace (existsb (String.eqb k0) l) with false; [reflexivity|].
  symmetry. apply not_true_is_false. intros X. apply existsb_exists in X.
  destruct X as [k [I E]]. apply String.eqb_eq in E. subst k. contradiction.
Qed.

Lemma sum_zero {A : Type} (l : list A) : list_sum (map (fun _ => 0%nat) l) = 0%nat.
Proof. induction l as [|a l IH]; [reflexivity | exact IH]. Qed.

Lemma document_cover_count (px py : Z) :
  In (px, py) (grid_points pb s) ->
  List.length (filter (covers_cell (Rect.mk px py s s))
                 (map fst (emitted (fold_left (sample_step pb s) (grid_points pb s) [])))) =
  if kept pb (px, py) then 1%nat else 0%nat.
Proof.
  intros G. rewrite filter_emitted.
  set (m := fold_left (sample_step pb s) (grid_points pb s) []).
  rewrite (map_ext_in _ (fun e => if key_is pb (fst e) (px, py) then 1%nat else 0%nat)).
  2:{ intros [k b] I. apply (pass_entry pb s s_pos px py k b G I). }
  rewrite <- (map_map fst (fun k => if key_is pb k (px, py) then 1%nat else 0%nat)).
  fold (ColorMap.keys m). unfold kept, key_is. cbn [fst snd].
  destruct (key_at pb px py) as [k0|] eqn:K.
  - rewrite sum_indicator by (apply NoDup_fold; constructor).
    rewrite <- has_existsb.
    destruct (pass_anchor pb s px py k0 G K) as [b [I _]].
    replace (ColorMap.has m k0) with true; [reflexivity|].
    symmetry. apply ColorMapFacts.has_In.
    change (In (fst (k0, b)) (map fst m)). apply in_map. exact I.
  - apply sum_zero.
Qed.

Lemma merge_loop_span (rects : list Rect.t) (current r : Rect.t) :
  Forall (fun c => 0 <= Rect.width c) (current :: rects) ->
  In r (merge_loop [] current rects) ->
  exists c1 c2, In c1 (current :: rects) /\ In c2 (current :: rects) /\
    Rect.x r = Rect.x c1 /\ Rect.y r = Rect.y c1 /\ Rect.height r = Rect.height c1 /\
    Rect.x r + Rect.width r = Rect.x c2 + Rect.width c2 /\
    Rect.width c1 <= Rect.width r.
Proof.
  revert current. induction rects as [|rect rects IH]; intros current F I.
  - simpl in I. destruct I as [<-|[]]. exists current, current. simpl. repeat split; auto; lia.
  - inversion F as [|? ? Fc F']; subst. inversion F' as [|? ? Fr F'']; subst.
    rewrite merge_loop_cons in I. destruct (mergeable current rect) eqn:M.
    + apply IH in I; [|constructor; [simpl; lia | exact F'']].
      destruct I as (c1 & c2 & I1 & I2 & Ex & Ey & Eh & Er & Ew).
      unfold mergeable in M. apply andb_prop in M. destruct M as [M Mx].
      apply Z.eqb_eq in Mx.
      assert (P1 : exists d1, In d1 (current :: rect :: rects) /\
                   Rect.x c1 = Rect.x d1 /\ Rect.y c1 = Rect.y d1 /\
                   Rect.height c1 = Rect.height d1 /\ Rect.width d1 <= Rect.width c1).
      { destruct I1 as [<-|I1].
        - exists current. simpl. repeat split; auto; lia.
        - exists c1. simpl. repeat split; auto; lia. }
      assert (P2 : exists d2, In d2 (current :: rect :: rects) /\
                   Rect.x c2 + Rect.width c2 = Rect.x d2 + Rect.width d2).
      { destruct I2 as [<-|I2].
        - exists rect. simpl. split; [auto | lia].
        - exists c2. simpl. auto. }
      destruct P1 as (d1 & J1 & Dx & Dy & Dh & Dw), P2 as (d2 & J2 & Dr).
      exists d1, d2. repeat split; auto; lia.
    + destruct I as [<-|I].
      * exists current, current. simpl. repeat split; auto; lia.
      * apply IH in I; [|exact F'].
        destruct I as (c1 & c2 & I1 & I2 & E). exists c1, c2.
        split; [right; exact I1|]. split; [right; exact I2|]. exact E.
Qed.

Lemma optimizeRects_span (rects : list Rect.t) (r : Rect.t) :
  Forall (fun c => 0 <= Rect.width c) rects ->
  In r (optimizeRects rects) ->
  exists c1 c2, In c1 rects /\ In c2 rects /\
    Rect.x r = Rect.x c1 /\ Rect.y r = Rect.y c1 /\ Rect.height r = Rect.height c1 /\
    Rect.x r + Rect.width r = Rect.x c2 + Rect.width c2 /\
    Rect.width c1 <= Rect.width r.
Proof.
  destruct rects as [|first rest]; [intros _ []|].
  rewrite optimizeRects_cons. apply merge_loop_span.
Qed.

End Document.

(** X11.  In the whole document every grid anchor whose sample is kept is
    covered by exactly one rectangle, over all colours, and every anchor
    whose sample is transparent is covered by none: rectangles never
    overlap, and merging never paints over a transparent sample. *)
Theorem document_covers_kept_anchors_once (pb : PixelBuffer) (s px py : Z)
        (colorMap : ColorMap.t) :
  1 <= s ->
  0 <= px < canvas_width pb -> 0 <= py < canvas_height pb ->
  (s | px) -> (s | py) ->
  group_pixels pb s = Some colorMap ->
  List.length (filter (covers_cell (Rect.mk px py s s)) (map fst (emitted colorMap))) =
  if kept pb (px, py) then 1%nat else 0%nat.
Proof.
  intros Hs Hx Hy Dx Dy G. rewrite group_pixels_grid in G by exact Hs.
  injection G as <-. apply document_cover_count; [exact Hs|].
  apply grid_points_In; auto.
Qed.

Lemma document_covers_kept_anchors_once_witness :
  List.length (filter (covers_cell (Rect.mk 1 0 1 1))
                 (map fst (emitted [("rgba(256,0,0,1)"%string,
                                     [Rect.mk 0 0 1 1; Rect.mk 1 0 1 1])]))) = 1%nat.
Proof.
  apply (document_covers_kept_anchors_once red2x1 1 1 0).
  - lia.
  - simpl; lia.
  - simpl; lia.
  - exists 1; reflexivity.
  - exists 0; reflexivity.
  - reflexivity.
Defined.

(** X12.  Every rectangle of the document starts at a grid anchor inside
    the canvas whose sample has the fill of the rectangle as its key; its
    height is the stride, its width a positive multiple of the stride, and
    its right edge passes the canvas by less than one stride. *)
Theorem emitted_rect_geometry (pb : PixelBuffer) (s : Z) (colorMap : ColorMap.t)
        (rect : Rect.t) (fill : string) :
  1 <= s -> group_pixels pb s = Some colorMap -> In (rect, fill) (emitted colorMap) ->
  key_at pb (Rect.x rect) (Rect.y rect) = Some fill /\
  (0 <= Rect.x rect < canvas_width pb /\ (s | Rect.x rect)) /\
  (0 <= Rect.y rect < canvas_height pb /\ (s | Rect.y rect)) /\
  Rect.height rect = s /\
  (s <= Rect.width rect /\ (s | Rect.width rect)) /\
  Rect.x rect + Rect.width rect < canvas_width pb + s.
Proof.
  intros Hs G I. rewrite group_pixels_grid in G by exact Hs. injection G as <-.
  apply emitted_In in I. destruct I as (b & I & R).
  assert (Cells : forall c, In c (sort b) ->
            exists qx qy, c = Rect.mk qx qy s s /\ In (qx, qy) (grid_points pb s) /\
                          key_at pb qx qy = Some fill).
  { intros c C. apply (Permutation_in _ (sort_perm b)) in C.
    exact (pass_cells pb s fill b c I C). }
  assert (Al : Forall (aligned s) (sort b)).
  { apply Forall_forall. intros c C. destruct (Cells c C) as (qx & qy & -> & Gq & _).
    apply grid_points_In in Gq; [|exact Hs].
    unfold aligned; simpl. repeat split; try tauto; try lia. exists 1. lia. }
  pose proof (aligned_optimizeRects s _ Al) as Al'.
  rewrite Forall_forall in Al'. destruct (Al' rect R) as (_ & Dw & _ & Eh).
  destruct (optimizeRects_span (sort b) rect (nonneg_aligned s _ Al) R)
    as (c1 & c2 & I1 & I2 & Ex & Ey & _ & Er & Ew).
  destruct (Cells c1 I1) as (qx & qy & -> & G1 & K1).
  destruct (Cells c2 I2) as (ux & uy & -> & G2 & _).
  apply grid_points_In in G1, G2; try exact Hs.
  simpl in Ex, Ey, Er, Ew. rewrite Ex, Ey.
  repeat split; try tauto; try lia.
Qed.

Lemma emitted_rect_geometry_witness :
  key_at red2x1 0 0 = Some "rgba(256,0,0,1)"%string /\ 0 + 2 < canvas_width red2x1 + 1.
Proof.
  destruct (emitted_rect_geometry red2x1 1
              [("rgba(256,0,0,1)"%string, [Rect.mk 0 0 1 1; Rect.mk 1 0 1 1])]
              (Rect.mk 0 0 2 1) "rgba(256,0,0,1)"%string
              ltac:(lia) ltac:(reflexivity) ltac:(left; reflexivity))
    as (K & _ & _ & _ & _ & E).
  split; [exact K | exact E].
Defined.

(** ** How many rectangles, and how much area *)

Section Budget.
Import ColorMap ColorMapFacts.

Lemma cells_set_present (m : t) (k : string) (v v' : list Rect.t) :
  get m k = Some v ->
  (List.length (all_cells (set m k v')) + List.length v =
   List.length (all_cells m) + List.length v')%nat.
Proof.
  unfold all_cells. induction m as [|[k0 v0] m IH]; simpl; [discriminate|].
  destruct (String.eqb k0 k); simpl; rewrite !length_app.
  - intros [= ->]. lia.
  - intros G. specialize (IH G). lia.
Qed.

Lemma cells_set_absent (m : t) (k : string) (v' : list Rect.t) :
  get m k = None ->
  List.length (all_cells (set m k v')) = (List.length (all_cells m) + List.length v')%nat.
Proof.
  unfold all_cells. induction m as [|[k0 v0] m IH]; simpl.
  - intros _. rewrite app_nil_r. reflexivity.
  - destruct (String.eqb k0 k); [discriminate|]. simpl. rewrite !length_app.
    intros G. rewrite (IH G). lia.
Qed.

Lemma cells_push_rect (m : t) (k : string) (r : Rect.t) :
  List.length (all_cells (push_rect m k r)) = S (List.length (all_cells m)).
Proof.
  unfold push_rect, has. destruct (get m k) as [v|] eqn:E; simpl.
  - rewrite E. pose proof (cells_set_present m k v (v ++ [r]) E) as H.
    rewrite length_app in H. simpl in H. lia.
  - rewrite get_set, String.eqb_refl.
    pose proof (cells_set_present (set m k []) k [] ([] ++ [r])) as H.
    rewrite get_set, String.eqb_refl in H. specialize (H eq_refl).
    rewrite (cells_set_absent m k [] E) in H. simpl in H. simpl. lia.
Qed.

Lemma cells_fold (pb : PixelBuffer) (s : Z) (pts : list (Z * Z)) (m : t) :
  List.length (all_cells (fold_left (sample_step pb s) pts m)) =
  (List.length (all_cells m) + List.length (filter (kept pb) pts))%nat.
Proof.
  revert m. induction pts as [|p pts IH]; intros m; simpl; [lia|].
  rewrite IH, sample_step_unfold. unfold kept at 2.
  destruct (key_at pb (fst p) (snd p)); simpl; [rewrite cells_push_rect|]; lia.
Qed.

Lemma total_area_app (l1 l2 : list Rect.t) :
  total_area (l1 ++ l2) = total_area l1 + total_area l2.
Proof.
  unfold total_area. induction l1 as [|a l1 IH]; simpl; [reflexivity | rewrite IH; lia].
Qed.

Lemma total_area_perm (l l' : list Rect.t) :
  Permutation l l' -> total_area l = total_area l'.
Proof. unfold total_area. induction 1; simpl; lia. Qed.

Lemma optimizeRects_area_length (l : list Rect.t) :
  total_area (optimizeRects l) = total_area l /\
  (List.length (optimizeRects l) <= List.length l)%nat.
Proof.
  destruct l as [|first rest]; [split; reflexivity|].
  rewrite optimizeRects_cons.
  destruct (merge_loop_totals rest first) as (_ & A & L). split; assumption.
Qed.

Lemma emitted_totals (m : t) :
  total_area (map fst (emitted m)) = total_area (all_cells m) /\
  (List.length (emitted m) <= List.length (all_cells m))%nat.
Proof.
  unfold emitted, merged_groups, all_cells.
  induction m as [|[k b] m [IHa IHl]]; [split; reflexivity|].
  cbn [map flat_map List.concat fst snd].
  rewrite map_app, total_area_app, !length_app, map_map, length_map, total_area_app.
  cbn [fst]. rewrite map_id, IHa.
  destruct (optimizeRects_area_length (sort b)) as (A & L).
  rewrite A, (total_area_perm _ _ (sort_perm b)).
  pose proof (Permutation_length (sort_perm b)). split; lia.
Qed.

Lemma total_area_squares (s : Z) (l : list Rect.t) :
  Forall (fun c => Rect.width c = s /\ Rect.height c = s) l ->
  total_area l = s * s * Z.of_nat (List.length l).
Proof.
  unfold total_area. induction 1 as [|c l [Ew Eh] F IH]; [simpl; lia|].
  cbn [fold_right List.length]. rewrite IH, Ew, Eh. lia.
Qed.

End Budget.

Lemma rect_budget_bound (pb : PixelBuffer) (s : Z) (colorMap : ColorMap.t) :
  1 <= s -> group_pixels pb s = Some colorMap ->
  (List.length (emitted colorMap) <= List.length (grid_points pb s))%nat.
Proof.
  intros Hs G. rewrite group_pixels_grid in G by exact Hs. injection G as <-.
  destruct (emitted_totals (fold_left (sample_step pb s) (grid_points pb s) []))
    as [_ L].
  pose proof (cells_fold pb s (grid_points pb s) []) as C. simpl in C.
  pose proof (filter_length_le (kept pb) (grid_points pb s)). lia.
Qed.

(** X13.  The document has at most one rectangle per kept sample, and the
    areas of its rectangles add up to the number of kept samples times the
    square of the stride: merging changes the number of rectangles, never
    the painted area. *)
Theorem rect_budget (pb : PixelBuffer) (s : Z) (colorMap : ColorMap.t) :
  1 <= s -> group_pixels pb s = Some colorMap ->
  (List.length (emitted colorMap) <= List.length (filter (kept pb) (grid_points pb s)))%nat /\
  (List.length (filter (kept pb) (grid_points pb s)) <= List.length (grid_points pb s))%nat /\
  total_area (map fst (emitted colorMap)) =
    s * s * Z.of_nat (List.length (filter (kept pb) (grid_points pb s))).
Proof.
  intros Hs G. rewrite group_pixels_grid in G by exact Hs. injection G as <-.
  destruct (emitted_totals (fold_left (sample_step pb s) (grid_points pb s) []))
    as [A L].
  pose proof (cells_fold pb s (grid_points pb s) []) as C. simpl in C.
  split; [lia|]. split; [apply filter_length_le|].
  rewrite A, <- C. apply total_area_squares.
  apply Forall_forall. intros c I. unfold all_cells in I.
  apply in_concat in I. destruct I as (b & Ib & Ic).
  apply in_map_iff in Ib. destruct Ib as ([k b'] & <- & Ie). simpl in Ic.
  destruct (pass_cells pb s k b' c Ie Ic) as (qx & qy & -> & _). auto.
Qed.

Lemma rect_budget_witness :
  total_area (map fst (emitted [("rgba(256,0,0,1)"%string,
                                 [Rect.mk 0 0 1 1; Rect.mk 1 0 1 1])])) = 2.
Proof.
  exact (proj2 (proj2 (rect_budget red2x1 1
                 [("rgba(256,0,0,1)"%string, [Rect.mk 0 0 1 1; Rect.mk 1 0 1 1])]
                 ltac:(lia) ltac:(reflexivity)))).
Defined.

Section GridSize.
Variable s : Z.
Hypothesis s_pos : 1 <= s.

Lemma steps_length (fuel : nat) (limit from : Z) :
  (Z.to_nat (limit - from) <= fuel)%nat ->
  Z.of_nat (List.length (steps fuel limit s from)) = Z.max 0 ((limit - from + s - 1) / s).
Proof.
  revert from. induction fuel as [|fuel IH]; intros from Hf; simpl;
    destruct (from <? limit) eqn:E;
    try (apply Z.ltb_lt in E); try (apply Z.ltb_ge in E); try lia.
  - simpl. assert ((limit - from + s - 1) / s < 1) by (apply Z.div_lt_upper_bound; lia).
    lia.
  - cbn [List.length]. rewrite Nat2Z.inj_succ, IH by lia.
    replace (limit - from + s - 1) with ((limit - (from + s) + s - 1) + 1 * s) by lia.
    rewrite Z.div_add by lia.
    assert (0 <= (limit - (from + s) + s - 1) / s) by (apply Z.div_pos; lia).
    lia.
  - simpl. assert ((limit - from + s - 1) / s < 1) by (apply Z.div_lt_upper_bound; lia).
    lia.
Qed.

Lemma grid_points_length (pb : PixelBuffer) :
  0 <= canvas_width pb -> 0 <= canvas_height pb ->
  Z.of_nat (List.length (grid_points pb s)) =
  ((canvas_width pb + s - 1) / s) * ((canvas_height pb + s - 1) / s).
Proof.
  intros HW HH. unfold grid_points.
  pose proof (steps_length (Z.to_nat (canvas_width pb)) (canvas_width pb) 0 ltac:(lia)) as LX.
  pose proof (steps_length (Z.to_nat (canvas_height pb)) (canvas_height pb) 0 ltac:(lia)) as LY.
  rewrite Z.sub_0_r in LX, LY.
  assert (0 <= (canvas_width pb + s - 1) / s) by (apply Z.div_pos; lia).
  assert (0 <= (canvas_height pb + s - 1) / s) by (apply Z.div_pos; lia).
  rewrite Z.max_r in LX, LY by assumption. rewrite <- LX, <- LY.
  generalize (steps (Z.to_nat (canvas_width pb)) (canvas_width pb) s 0).
  generalize (steps (Z.to_nat (canvas_height pb)) (canvas_height pb) s 0).
  intros ys xs. induction ys as [|y0 ys IH]; simpl; [lia|].
  rewrite length_app, length_map, Nat2Z.inj_add, IH. lia.
Qed.

End GridSize.

(** X14.  The pass takes [ceil(W/s) * ceil(H/s)] samples.  At the stride the
    handler picks, a canvas no larger than 1200 by 1200 (what the resize of
    lines 23-38 aims at) gives at most 958800 samples, hence at most that
    many rectangles. *)
Theorem sample_count (pb : PixelBuffer) (colorMap : ColorMap.t) :
  0 <= canvas_width pb <= 1200 -> 0 <= canvas_height pb <= 1200 ->
  group_pixels pb (sampleRate pb) = Some colorMap ->
  Z.of_nat (List.length (grid_points pb (sampleRate pb))) =
    ((canvas_width pb + sampleRate pb - 1) / sampleRate pb)
    * ((canvas_height pb + sampleRate pb - 1) / sampleRate pb) /\
  Z.of_nat (List.length (grid_points pb (sampleRate pb))) <= 958800 /\
  Z.of_nat (List.length (emitted colorMap)) <= 958800.
Proof.
  intros HW HH G.
  pose proof (sampleRate_pos pb) as Hs.
  pose proof (grid_points_length (sampleRate pb) Hs pb ltac:(lia) ltac:(lia)) as L.
  pose proof (rect_budget_bound pb (sampleRate pb) colorMap Hs G) as B.
  assert (Bd : ((canvas_width pb + sampleRate pb - 1) / sampleRate pb)
               * ((canvas_height pb + sampleRate pb - 1) / sampleRate pb) <= 958800).
  { rewrite sampleRate_spec in *. unfold spec_stride in *.
    set (W := canvas_width pb) in *. set (H := canvas_height pb) in *.
    assert (Q : 0 <= Z.min W H / 400 <= 3).
    { split; [apply Z.div_pos; lia | apply Z.div_le_upper_bound; lia]. }
    assert (C : Z.min W H / 400 <= 1 \/ Z.min W H / 400 = 2 \/ Z.min W H / 400 = 3) by lia.
    destruct C as [C | [C | C]].
    - assert (Z.min W H < 800).
      { destruct (Z_lt_ge_dec (Z.min W H) 800) as [?|Ge]; [assumption|].
        assert (2 <= Z.min W H / 400) by (apply Z.div_le_lower_bound; lia). lia. }
      replace (Z.max 1 (Z.min W H / 400)) with 1 by lia.
      rewrite !Z.div_1_r. nia.
    - rewrite C. replace (Z.max 1 2) with 2 by reflexivity.
      assert ((W + 2 - 1) / 2 < 601) by (apply Z.div_lt_upper_bound; lia).
      assert ((H + 2 - 1) / 2 < 601) by (apply Z.div_lt_upper_bound; lia).
      assert (0 <= (W + 2 - 1) / 2) by (apply Z.div_pos; lia).
      assert (0 <= (H + 2 - 1) / 2) by (apply Z.div_pos; lia).
      nia.
    - rewrite C. replace (Z.max 1 3) with 3 by reflexivity.
      assert ((W + 3 - 1) / 3 < 401) by (apply Z.div_lt_upper_bound; lia).
      assert ((H + 3 - 1) / 3 < 401) by (apply Z.div_lt_upper_bound; lia).
      assert (0 <= (W + 3 - 1) / 3) by (apply Z.div_pos; lia).
      assert (0 <= (H + 3 - 1) / 3) by (apply Z.div_pos; lia).
      nia. }
  split; [exact L|]. split; [lia|]. lia.
Qed.

Lemma sample_count_witness :
  Z.of_nat (List.length (emitted [("rgba(256,0,0,1)"%string,
                                   [Rect.mk 0 0 1 1; Rect.mk 1 0 1 1])])) <= 958800.
Proof.
  exact (proj2 (proj2 (sample_count red2x1
                 [("rgba(256,0,0,1)"%string, [Rect.mk 0 0 1 1; Rect.mk 1 0 1 1])]
                 ltac:(simpl; lia) ltac:(simpl; lia) ltac:(reflexivity)))).
Defined.

(** ** Quantisation of the channels and of the opacity *)

(** X15.  A channel byte [v] is quantised to the even number [q] with
    [v <= q <= v + 1]: even values stay, odd values go up by one, so 255
    becomes 256; quantising is monotone and quantising [q] again gives [q]. *)
Theorem quantize_channel (v w : Z) :
  0 <= v <= 255 -> v <= w ->
  exists q q',
    quantize (Some v) = Some q /\ quantize (Some w) = Some q' /\
    Z.even q = true /\ v <= q <= v + 1 /\ q <= q' /\
    quantize (Some q) = Some q /\
    0 <= q <= 256 /\ (q = 256 <-> v = 255).
Proof.
  intros Hv Hw. exists ((v + 1) / 2 * 2), ((w + 1) / 2 * 2).
  rewrite !quantize_Some.
  pose proof (Z.div_mod (v + 1) 2 ltac:(lia)) as Dv.
  pose proof (Z.mod_pos_bound (v + 1) 2 ltac:(lia)) as Mv.
  pose proof (Z.div_mod (w + 1) 2 ltac:(lia)) as Dw.
  pose proof (Z.mod_pos_bound (w + 1) 2 ltac:(lia)) as Mw.
  split; [reflexivity|]. split; [reflexivity|]. split.
  - rewrite Z.mul_comm. rewrite Z.even_mul. reflexivity.
  - split; [lia|]. split.
    + assert ((v + 1) / 2 <= (w + 1) / 2) by (apply Z.div_le_mono; lia). lia.
    + split.
      * f_equal. f_equal.
        replace ((v + 1) / 2 * 2 + 1) with (1 + (v + 1) / 2 * 2) by lia.
        rewrite Z.div_add by lia. reflexivity.
      * split; lia.
Qed.

Lemma quantize_channel_witness :
  exists q q',
    quantize (Some 255) = Some q /\ quantize (Some 255) = Some q' /\
    Z.even q = true /\ 255 <= q <= 255 + 1 /\ q <= q' /\
    quantize (Some q) = Some q /\
    0 <= q <= 256 /\ (q = 256 <-> 255 = 255).
Proof.
  apply (quantize_channel 255 255); lia.
Defined.

(** X16.  An alpha byte [a] is quantised to [n/20] with [n] the integer
    nearest to [20a/255], so the opacity of the key is off by at most 1/40.
    The sample is skipped only for [a = 0]; the opacity reads 0 exactly for
    [a <= 6] and 1 exactly for [a >= 249]; it is one of the 21 levels. *)
Theorem quantize_opacity (a : Z) :
  0 <= a <= 255 ->
  let n := Js.Math_round (inject_Z a / 255 * 20)%Q in
  quantize_alpha (alpha_of (Some a)) = Some (inject_Z n / 20)%Q /\
  0 <= n <= 20 /\
  -255 <= 40 * a - 510 * n < 255 /\
  (n = 0 <-> a <= 6) /\ (n = 20 <-> 249 <= a) /\
  (is_zero (alpha_of (Some a)) = true <-> a = 0) /\
  In (Js.show_frac (quantize_alpha (alpha_of (Some a)))) alpha_levels.
Proof.
  intros Ha n. subst n. rewrite Math_round_alpha.
  pose proof (Z.div_mod (40 * a + 255) 510 ltac:(lia)) as D.
  pose proof (Z.mod_pos_bound (40 * a + 255) 510 ltac:(lia)) as M.
  split; [simpl; rewrite Math_round_alpha; reflexivity|].
  split; [lia|]. split; [lia|]. split; [lia|]. split; [lia|]. split.
  - rewrite is_zero_alpha. apply Z.eqb_eq.
  - apply quantized_alpha_level. exact Ha.
Qed.

Lemma quantize_opacity_witness :
  Js.Math_round (inject_Z 250 / 255 * 20)%Q = 20 <-> 249 <= 250.
Proof.
  exact (proj1 (proj2 (proj2 (proj2 (proj2 (quantize_opacity 250 ltac:(lia))))))).
Defined.

(** ** The key as a string *)

Section KeyText.
Local Open Scope string_scope.

Lemma append_inj_l (a b c : string) : a ++ b = a ++ c -> b = c.
Proof. induction a as [|ch a IH]; simpl; [auto | intros [= E]; auto]. Qed.

Lemma append_length (a b : string) :
  String.length (a ++ b) = (String.length a + String.length b)%nat.
Proof. induction a as [|ch a IH]; simpl; [reflexivity | rewrite IH; reflexivity]. Qed.

Lemma append_inj_r (a b c : string) : a ++ c = b ++ c -> a = b.
Proof.
  revert b. induction a as [|ch a IH]; intros [|ch' b] E; simpl in E.
  - reflexivity.
  - exfalso. apply (f_equal String.length) in E. simpl in E.
    rewrite append_length in E. lia.
  - exfalso. apply (f_equal String.length) in E. simpl in E.
    rewrite append_length in E. lia.
  - injection E as -> E. f_equal. apply IH. exact E.
Qed.

(** A comma-free string followed by a comma: the split is unique. *)
Lemma comma_split (a b c d : string) :
  comma_free a = true -> comma_free b = true ->
  a ++ "," ++ c = b ++ "," ++ d -> a = b /\ c = d.
Proof.
  revert b. induction a as [|ch a IH]; intros [|ch' b] Fa Fb E; simpl in *.
  - injection E as ->. auto.
  - injection E as <- _. discriminate Fb.
  - injection E as -> _. discriminate Fa.
  - injection E as -> E. apply andb_prop in Fa, Fb.
    destruct (IH b (proj2 Fa) (proj2 Fb) E) as [-> ->]. auto.
Qed.

Lemma uint_comma_free (d : Decimal.uint) : comma_free (NilEmpty.string_of_uint d) = true.
Proof. induction d; simpl; auto. Qed.

Lemma digits_comma_free (n : Z) : comma_free (Js.digits n) = true.
Proof.
  unfold Js.digits, NilZero.string_of_int, NilZero.string_of_uint.
  destruct (Z.to_int n) as [d|d]; destruct d; simpl; auto using uint_comma_free.
Qed.

Lemma uint_inj (d d' : Decimal.uint) :
  NilEmpty.string_of_uint d = NilEmpty.string_of_uint d' -> d = d'.
Proof.
  intros E. pose proof (NilEmpty.usu d) as U. rewrite E, NilEmpty.usu in U.
  congruence.
Qed.

Lemma digits_inj (n m : Z) : Js.digits n = Js.digits m -> n = m.
Proof.
  unfold Js.digits. intros E. apply DecimalZ.to_int_inj.
  assert (NN : forall p, Pos.to_uint p <> Decimal.Nil).
  { intros p. apply Unsigned.to_uint_nonnil. }
  assert (S : forall z d, Z.to_int z = Decimal.Pos d \/ Z.to_int z = Decimal.Neg d ->
                d <> Decimal.Nil).
  { intros [|p|p] d [X|X]; simpl in X; try discriminate X; injection X as <-;
      try apply NN; discriminate. }
  pose proof (NilZero.isi (Z.to_int n)) as In.
  pose proof (NilZero.isi (Z.to_int m)) as Im.
  rewrite E in In.
  assert (An : Z.to_int n <> Decimal.Pos Decimal.Nil /\ Z.to_int n <> Decimal.Neg Decimal.Nil).
  { split; intros X; eapply S; eauto. }
  assert (Am : Z.to_int m <> Decimal.Pos Decimal.Nil /\ Z.to_int m <> Decimal.Neg Decimal.Nil).
  { split; intros X; eapply S; eauto. }
  specialize (In (proj1 An) (proj2 An)). specialize (Im (proj1 Am) (proj2 Am)).
  congruence.
Qed.

Lemma level_inj (n m : Z) :
  0 <= n <= 20 -> 0 <= m <= 20 ->
  Js.Number_toString (inject_Z n / 20)%Q = Js.Number_toString (inject_Z m / 20)%Q ->
  n = m.
Proof.
  intros Hn Hm E.
  assert (All : forallb (fun i => forallb (fun j =>
                  implb (String.eqb (Js.Number_toString (inject_Z (Z.of_nat i) / 20)%Q)
                                    (Js.Number_toString (inject_Z (Z.of_nat j) / 20)%Q))
                        (Nat.eqb i j)) (seq 0 21)) (seq 0 21) = true)
    by (vm_compute; reflexivity).
  rewrite forallb_forall in All.
  specialize (All (Z.to_nat n) ltac:(apply in_seq; lia)).
  rewrite forallb_forall in All.
  specialize (All (Z.to_nat m) ltac:(apply in_seq; lia)).
  rewrite !Z2Nat.id in All by lia. rewrite E, String.eqb_refl in All. simpl in All.
  apply Nat.eqb_eq in All. lia.
Qed.

End KeyText.

Lemma quantize_opacity_range (a : Z) :
  0 <= a <= 255 -> 0 <= Js.Math_round (inject_Z a / 255 * 20)%Q <= 20.
Proof.
  intros Ha. rewrite Math_round_alpha.
  pose proof (Z.div_mod (40 * a + 255) 510 ltac:(lia)) as D.
  pose proof (Z.mod_pos_bound (40 * a + 255) 510 ltac:(lia)) as M.
  lia.
Qed.

(** X17.  Two samples get the same key exactly when their quantised red,
    green and blue values and their opacity levels are equal: the text of
    the key never merges two different quantised colours into one bucket. *)
Theorem colorKey_injective (r g b a r' g' b' a' : Z) :
  0 <= a <= 255 -> 0 <= a' <= 255 ->
  colorKey (Some r) (Some g) (Some b) (alpha_of (Some a)) =
  colorKey (Some r') (Some g') (Some b') (alpha_of (Some a')) <->
  quantize (Some r) = quantize (Some r') /\ quantize (Some g) = quantize (Some g') /\
  quantize (Some b) = quantize (Some b') /\
  Js.Math_round (inject_Z a / 255 * 20)%Q = Js.Math_round (inject_Z a' / 255 * 20)%Q.
Proof.
  intros Ha Ha'. split.
  - unfold colorKey. rewrite !quantize_Some. cbn [Js.show]. intros E.
    apply append_inj_l in E.
    apply comma_split in E; try apply digits_comma_free. destruct E as [Er E].
    apply comma_split in E; try apply digits_comma_free. destruct E as [Eg E].
    apply comma_split in E; try apply digits_comma_free. destruct E as [Eb E].
    apply append_inj_r in E. simpl in E.
    apply digits_inj in Er, Eg, Eb.
    pose proof (quantize_opacity_range a Ha) as Ra.
    pose proof (quantize_opacity_range a' Ha') as Ra'.
    apply level_inj in E; auto. rewrite Er, Eg, Eb. auto.
  - intros (Er & Eg & Eb & Ea). unfold colorKey. rewrite Er, Eg, Eb.
    simpl. rewrite Ea. reflexivity.
Qed.

Lemma colorKey_injective_witness :
  colorKey (Some 100) (Some 0) (Some 0) (alpha_of (Some 255)) =
  colorKey (Some 99) (Some 0) (Some 0) (alpha_of (Some 250)).
Proof.
  apply (proj2 (colorKey_injective 100 0 0 255 99 0 0 250 ltac:(lia) ltac:(lia))).
  repeat split; reflexivity.
Defined.

(** X18.  A sample whose index lies past the end of the array reads
    [undefined] on every channel; it is not skipped, and its key is
    [rgba(NaN,NaN,NaN,NaN)]. *)
Theorem sample_past_the_array (pb : PixelBuffer) (px py : Z) :
  Z.of_nat (List.length (data pb)) <= (py * canvas_width pb + px) * 4 ->
  kept pb (px, py) = true /\
  key_at pb px py = Some "rgba(NaN,NaN,NaN,NaN)"%string.
Proof.
  intros H.
  assert (U : forall i, 0 <= i ->
            data_at (data pb) ((py * canvas_width pb + px) * 4 + i) = None).
  { intros i Hi. unfold data_at.
    replace ((py * canvas_width pb + px) * 4 + i <? 0) with false
      by (symmetry; apply Z.ltb_ge; lia).
    replace (nth_error (data pb) (Z.to_nat ((py * canvas_width pb + px) * 4 + i)))
      with (@None byte); [reflexivity|].
    symmetry. apply nth_error_None. lia. }
  assert (K : key_at pb px py = Some "rgba(NaN,NaN,NaN,NaN)"%string).
  { unfold key_at. pose proof (U 0 ltac:(lia)) as U0. rewrite Z.add_0_r in U0.
    rewrite U0, !U by lia. reflexivity. }
  split; [|exact K]. unfold kept. simpl. rewrite K. reflexivity.
Qed.

Lemma sample_past_the_array_witness :
  key_at (mkPixelBuffer 1 1 []) 0 0 = Some "rgba(NaN,NaN,NaN,NaN)"%string.
Proof.
  apply (sample_past_the_array (mkPixelBuffer 1 1 []) 0 0). simpl. lia.
Defined.

(** ** The page: the name of the download *)

Section DownloadName.
Local Open Scope string_scope.

Lemma split_dot_cons (t : string) : exists head tail, split_dot t = head :: tail.
Proof.
  induction t as [|c t IH]; simpl; [eauto|].
  destruct (Ascii.eqb c "."); [eauto|].
  destruct IH as (h & tl & ->). eauto.
Qed.

Lemma join_dot_cons (a b : string) (l : list string) :
  join_dot (a :: b :: l) = a ++ "." ++ join_dot (b :: l).
Proof. reflexivity. Qed.

Lemma join_split_dot (t : string) : join_dot (split_dot t) = t.
Proof.
  induction t as [|c t IH]; [reflexivity|]. cbn [split_dot].
  destruct (split_dot_cons t) as (h & tl & E). rewrite E in *.
  destruct (Ascii.eqb_spec c ".") as [->|N].
  - rewrite join_dot_cons, IH. reflexivity.
  - destruct tl as [|x tl].
    + simpl in *. rewrite IH. reflexivity.
    + rewrite join_dot_cons. rewrite join_dot_cons in IH. rewrite <- IH. reflexivity.
Qed.

Lemma split_dot_head (t : string) :
  exists head rest,
    nth_error (split_dot t) 0 = Some head /\ dot_free head = true /\
    t = head ++ rest /\ (rest = "" \/ exists rest', rest = String "." rest').
Proof.
  induction t as [|c t IH]; cbn [split_dot].
  - exists "", "". simpl. auto.
  - destruct (Ascii.eqb_spec c ".") as [->|N].
    + exists "", (String "." t). simpl. repeat split; eauto.
    + destruct IH as (h & rest & E & F & -> & R).
      destruct (split_dot (h ++ rest)) as [|h' tl]; [discriminate E|].
      simpl in E. injection E as ->.
      exists (String c h), rest. simpl. repeat split; auto.
      rewrite F. apply Ascii.eqb_neq in N. rewrite N. reflexivity.
Qed.

Lemma split_dot_free (t rest : string) :
  dot_free t = true -> nth_error (split_dot (t ++ String "." rest)) 0 = Some t.
Proof.
  induction t as [|c t IH]; simpl; [reflexivity|].
  intros F. apply andb_prop in F. destruct F as [Fc Ft].
  destruct (Ascii.eqb c "."); [discriminate Fc|].
  specialize (IH Ft). destruct (split_dot (t ++ String "." rest)); [discriminate IH|].
  simpl in IH. injection IH as ->. reflexivity.
Qed.

End DownloadName.

Lemma split_dot_whole (t : string) :
  dot_free t = true -> nth_error (split_dot t) 0 = Some t.
Proof.
  induction t as [|c t IH]; simpl; [reflexivity|].
  intros F. apply andb_prop in F. destruct F as [Fc Ft].
  destruct (Ascii.eqb c "."); [discriminate Fc|].
  specialize (IH Ft). destruct (split_dot t); [discriminate IH|].
  simpl in IH. injection IH as ->. reflexivity.
Qed.

(** X19.  The download is named [stem.svg], where the stem is exactly the
    part of the image name before its first dot (the whole name when it has
    no dot), and [converted] when that part is empty or there is no image.
    Every name splits in this way, and splitting a name at its dots and
    joining the pieces with dots gives the name back. *)
Theorem download_name_stem (f : UploadedFile) (head rest : string) :
  file_name f = (head ++ rest)%string -> dot_free head = true ->
  (rest = EmptyString \/ exists rest', rest = String "." rest') ->
  download_name (Some f) =
    (match head with EmptyString => "converted" | _ => head end ++ ".svg")%string /\
  download_name None = "converted.svg"%string /\
  (forall t, exists h r, t = (h ++ r)%string /\ dot_free h = true /\
                         (r = EmptyString \/ exists r', r = String "." r')) /\
  (forall t, join_dot (split_dot t) = t).
Proof.
  intros N F R. split; [|split; [reflexivity|split]].
  - unfold download_name. rewrite N.
    assert (E : nth_error (split_dot (head ++ rest)) 0 = Some head).
    { destruct R as [->|[rest' ->]].
      - rewrite append_nil_r. apply split_dot_whole. exact F.
      - apply split_dot_free. exact F. }
    rewrite E. destruct head; reflexivity.
  - intros t. destruct (split_dot_head t) as (h & r & _ & Fh & E & Rr).
    exists h, r. auto.
  - exact join_split_dot.
Qed.

Lemma download_name_stem_witness :
  download_name (Some (mkFile "photo" [])) = "photo.svg"%string.
Proof.
  exact (proj1 (download_name_stem (mkFile "photo" []) "photo" ""
                  ltac:(reflexivity) ltac:(reflexivity) ltac:(left; reflexivity))).
Defined.

(** X20.  Everything after the first dot of the image name is dropped, not
    only the extension: an image named [stem.rest], with a non-empty
    dot-free [stem], is downloaded as [stem.svg] whatever [rest] is, and a
    file that carries the name of a download gets that same name again. *)
Theorem download_name_first_dot (stem rest : string) (bytes bytes' : list byte) :
  dot_free stem = true -> stem <> EmptyString ->
  download_name (Some (mkFile (stem ++ String "." rest) bytes)) = (stem ++ ".svg")%string /\
  download_name
    (Some (mkFile (download_name (Some (mkFile (stem ++ String "." rest) bytes))) bytes')) =
  download_name (Some (mkFile (stem ++ String "." rest) bytes)).
Proof.
  intros F N.
  assert (D : forall r b, download_name (Some (mkFile (stem ++ String "." r) b))
                          = (stem ++ ".svg")%string).
  { intros r b. unfold download_name. cbn [file_name].
    rewrite (split_dot_free stem r F). destruct stem; [contradiction | reflexivity]. }
  split; [apply D|]. rewrite (D rest bytes). apply (D "svg"%string bytes').
Qed.

Lemma download_name_first_dot_witness :
  download_name (Some (mkFile "photo.final.png" [])) = "photo.svg"%string.
Proof.
  exact (proj1 (download_name_first_dot "photo" "final.png" [] []
                  ltac:(reflexivity) ltac:(discriminate))).
Defined.

(** ** The page: drops, conversions and answers *)

Section PageInvariants.

Lemma step_one_in_flight (p : Page) (e : Event) :
  one_in_flight p -> one_in_flight (step p e).
Proof.
  intros I. destruct e as [files| |response]; simpl.
  - destruct files as [|file files]; [exact I|]. unfold onDrop, one_in_flight in *. simpl.
    destruct I as [I|(img & E & L & N)]; [left; exact I|].
    right. exists img. repeat split; auto. discriminate.
  - unfold convert_enabled, convertToSvg_start.
    destruct (image p) as [img|] eqn:Im; [|exact I].
    destruct (loading p) eqn:L; simpl; [exact I|].
    destruct I as [[E _]|(x & _ & L' & _)]; [|congruence].
    right. exists img. simpl. rewrite E. repeat split; auto. discriminate.
  - unfold convertToSvg_settle.
    destruct I as [[E L]|(img & E & L & N)]; rewrite E; [left; auto|].
    destruct response as [r|]; [destruct (response_ok r)|]; left; simpl; auto.
Qed.

Lemma run_one_in_flight (events : list Event) (p : Page) :
  one_in_flight p -> one_in_flight (run events p).
Proof.
  unfold run. revert p. induction events as [|e events IH]; intros p I; simpl;
    [exact I | apply IH, step_one_in_flight, I].
Qed.

End PageInvariants.

(** X21.  Whatever the user drops or clicks and whenever responses arrive,
    the page has at most one conversion request waiting; one is waiting
    exactly while [loading] is set, and then the convert button is disabled. *)
Theorem one_request_at_a_time (events : list Event) :
  let p := run events initial_page in
  (List.length (in_flight p) <= 1)%nat /\
  (loading p = true <-> in_flight p <> []) /\
  (in_flight p <> [] -> convert_enabled p = false).
Proof.
  intros p.
  assert (I : one_in_flight p).
  { apply run_one_in_flight. left. split; reflexivity. }
  unfold convert_enabled.
  destruct I as [[E L]|(img & E & L & N)]; rewrite E, L.
  - simpl. repeat split; try lia; try congruence.
  - simpl. repeat split; try lia; try congruence; try discriminate.
    intros _. destruct (image p); reflexivity.
Qed.

Section Sessions.
Variable decode : UploadedFile -> option PixelBuffer.

Lemma convert_Some (pb : PixelBuffer) : exists doc, convert pb = Some doc.
Proof.
  unfold convert, convert_at. rewrite group_pixels_grid by apply sampleRate_pos.
  eexists. reflexivity.
Qed.

Lemma dropped_snoc (actions : list Action) (a : Action) :
  dropped (actions ++ [a]) =
  (dropped actions ++ match a with UserDrop (file :: _) => [file] | _ => [] end)%list.
Proof. unfold dropped. rewrite flat_map_app. simpl. rewrite app_nil_r. reflexivity. Qed.

Lemma act_shown (actions : list Action) (p : Page) (a : Action) :
  shown_is_converted decode actions p -> shown_is_converted decode (actions ++ [a]) (act decode p a).
Proof.
  intros (Sv & Im & Fl). unfold shown_is_converted. rewrite dropped_snoc.
  set (new := match a with UserDrop (file :: _) => [file] | _ => [] end).
  assert (W : forall img, In img (dropped actions) -> In img (dropped actions ++ new))
    by (intros; apply in_or_app; auto).
  assert (Sv' : forall doc, svg p = Some doc ->
             exists img pb, In img (dropped actions ++ new) /\
                            decode img = Some pb /\ convert pb = Some doc).
  { intros doc E. destruct (Sv doc E) as (img & pb & I & D & C). exists img, pb. auto. }
  assert (Keep : (forall doc, svg p = Some doc ->
                    exists img pb, In img (dropped actions ++ new) /\
                                   decode img = Some pb /\ convert pb = Some doc) /\
                 (forall img, image p = Some img -> In img (dropped actions ++ new)) /\
                 (forall img, In img (in_flight p) -> In img (dropped actions ++ new)))
    by (split; [exact Sv' | split; intros; apply W; auto]).
  destruct a as [files| |]; cbn [act step].
  - destruct files as [|file files]; [exact Keep|]. cbn [onDrop svg image in_flight].
    split; [discriminate|]. split.
    + intros img [= <-]. apply in_or_app. right. left. reflexivity.
    + intros img I. apply W, Fl, I.
  - unfold convert_enabled, convertToSvg_start.
    destruct (image p) as [img|] eqn:E; [|rewrite <- E in Keep; exact Keep].
    destruct (negb (loading p)); [|rewrite <- E in Keep; exact Keep].
    rewrite <- E. cbn [svg image in_flight].
    split; [exact Sv'|]. split.
    + intros x Ex. apply W, Im. congruence.
    + intros x I. apply in_app_or in I. destruct I as [I|[<-|[]]].
      * apply W, Fl, I.
      * apply W, Im. reflexivity.
  - destruct (in_flight p) as [|img waiting] eqn:E; [rewrite <- E in Keep; exact Keep|].
    cbn [step]. unfold convertToSvg_settle. rewrite E. unfold POST.
    assert (Iw : forall x, In x waiting -> In x (dropped actions ++ new))
      by (intros x I; apply W, Fl; right; exact I).
    destruct (decode img) as [pb|] eqn:D.
    + destruct (convert_Some pb) as [doc C]. rewrite C.
      cbn [option_map response_ok response_svg svg image in_flight].
      split; [|split; [intros x Ex; apply W, Im, Ex | exact Iw]].
      intros doc' [= <-]. exists img, pb. repeat split; auto.
      apply W, Fl. left. reflexivity.
    + cbn [response_ok Z.leb Z.compare Pos.compare Pos.compare_cont andb
             svg image in_flight].
      split; [exact Sv'|]. split; [intros x Ex; apply W, Im, Ex | exact Iw].
Qed.

Lemma session_snoc (actions : list Action) (a : Action) :
  session decode (actions ++ [a]) = act decode (session decode actions) a.
Proof. unfold session. rewrite fold_left_app. reflexivity. Qed.

Lemma session_shown (actions : list Action) :
  shown_is_converted decode actions (session decode actions).
Proof.
  induction actions as [|a actions IH] using rev_ind.
  - repeat split; simpl; try discriminate; intros ? [].
  - rewrite session_snoc. apply act_shown. exact IH.
Qed.

End Sessions.

(** X22.  When the page talks to the handler of route.ts, the svg it shows
    is always the conversion of the decoded pixels of some file that was
    dropped earlier, and the selected image and every waiting request are
    files that were dropped. *)
Theorem shown_svg_is_a_conversion (decode : UploadedFile -> option PixelBuffer)
        (actions : list Action) :
  let p := session decode actions in
  (forall doc, svg p = Some doc ->
     exists img pb, In img (dropped actions) /\ decode img = Some pb /\
                    convert pb = Some doc) /\
  (forall img, image p = Some img -> In img (dropped actions)) /\
  (forall img, In img (in_flight p) -> In img (dropped actions)).
Proof. exact (session_shown decode actions). Qed.

(** X23.  After a drop, a click on the convert button and the answer of the
    handler, [loading] is off, nothing waits, and the svg is the document of
    the decoded image, or still empty when decoding threw (the 500 answer);
    the 400 answer never occurs, since the form always carries the image. *)
Theorem drop_convert_answer (decode : UploadedFile -> option PixelBuffer)
        (file : UploadedFile) (others : list UploadedFile) :
  session decode [UserDrop (file :: others); UserConvert; Answer] =
  mkPage (Some file)
         (match decode file with Some pb => convert pb | None => None end)
         false [] /\
  (forall e, POST decode (Some (FileEntry file)) <> Some (Json_error e 400)).
Proof.
  split.
  - unfold session. simpl. unfold convertToSvg_settle. simpl.
    destruct (decode file) as [pb|]; simpl; [|reflexivity].
    destruct (convert_Some pb) as [doc C]. rewrite C. reflexivity.
  - intros e. simpl. destruct (decode file) as [pb|]; [|discriminate].
    destruct (convert pb); discriminate.
Qed.

(** X24.  A drop while a conversion is waiting does not cancel it: when the
    answer for the first image arrives, its svg is shown although the second
    image is now selected, and the download takes its name from the second
    image. *)
Theorem drop_during_conversion (decode : UploadedFile -> option PixelBuffer)
        (first second : UploadedFile) (pb : PixelBuffer) (doc : string) :
  decode first = Some pb -> convert pb = Some doc ->
  let p := session decode [UserDrop [first]; UserConvert; UserDrop [second]; Answer] in
  p = mkPage (Some second) (Some doc) false [] /\
  download_name (image p) = download_name (Some second).
Proof.
  intros D C p. subst p. unfold session. simpl. unfold convertToSvg_settle. simpl.
  rewrite D, C. simpl. split; reflexivity.
Qed.

Lemma drop_during_conversion_witness :
  svg (session (fun f => if String.eqb (file_name f) "red.png" then Some red2x1 else None)
         [UserDrop [mkFile "red.png" []]; UserConvert;
          UserDrop [mkFile "other.png" []]; Answer]) =
  convert red2x1.
Proof.
  destruct (drop_during_conversion
              (fun f => if String.eqb (file_name f) "red.png" then Some red2x1 else None)
              (mkFile "red.png" []) (mkFile "other.png" []) red2x1
              (svg_document 2 1 (rect_element (Rect.mk 0 0 2 1) "rgba(256,0,0,1)"))
              ltac:(reflexivity) ltac:(vm_compute; reflexivity)) as [E _].
  rewrite E. vm_compute. reflexivity.
Defined.

(** ** The page: the progress bar *)

Section Progress.

Lemma SFcompare_flip (a b : spec_float) :
  SFcompare a b = Some Gt -> SFcompare b a = Some Lt.
Proof.
  destruct a as [sa|sa| |sa ma ea], b as [sb|sb| |sb mb eb]; simpl;
    try discriminate; try (destruct sa; discriminate || reflexivity);
    try (destruct sb; discriminate || reflexivity);
    try (destruct sa, sb; discriminate || reflexivity).
  change (Pos.compare_cont Eq ma mb) with (Pos.compare ma mb).
  change (Pos.compare_cont Eq mb ma) with (Pos.compare mb ma).
  rewrite (Z.compare_antisym ea eb), (Pos.compare_antisym ma mb).
  destruct sa, sb; try discriminate; try reflexivity;
    destruct (ea ?= eb)%Z; simpl; try discriminate; try reflexivity;
    destruct (ma ?= mb)%positive; simpl; try discriminate; reflexivity.
Qed.

Lemma below_cap_or_nan (x : float) :
  (95 <=? x)%float = false ->
  (x <? 95)%float = true \/ PrimFloat.is_nan x = true.
Proof.
  unfold PrimFloat.is_nan.
  rewrite FloatAxioms.leb_spec, FloatAxioms.ltb_spec, FloatAxioms.eqb_spec.
  unfold SFleb, SFltb, SFeqb.
  destruct (SFcompare (Prim2SF 95) (Prim2SF x)) as [[| |]|] eqn:C; try discriminate.
  - intros _. left. rewrite (SFcompare_flip _ _ C). reflexivity.
  - intros _. right.
    destruct (Prim2SF x); try reflexivity; vm_compute in C; discriminate C.
Qed.

End Progress.

(** X25.  One tick of the progress bar never gives more than 95: the new
    value is 95, or a number below 95, or not a number. *)
Theorem progress_capped (prev : float) :
  progress_tick prev = 95%float \/
  (progress_tick prev <? 95)%float = true \/
  PrimFloat.is_nan (progress_tick prev) = true.
Proof.
  unfold progress_tick.
  match goal with |- context [(95 <=? ?np)%float] => set (n := np) end.
  destruct (95 <=? n)%float eqn:L.
  - left. reflexivity.
  - right. apply below_cap_or_nan. exact L.
Qed.
